(** * The editor menu command factory of lime-elements

    A shallow embedding of the text editor's menu command factory
    (the module that imports [EditorMenuTypes] and [levelMapping] from
    [./types] and exports [MenuCommandFactory]), together with the
    properties its specification states about it.

    The factory turns a menu action ([strong], [headerlevel2], [link], ...)
    into a ProseMirror command by looking the action up in a dispatch table
    ([commandMapping]) and the needed mark or node type up in the schema of
    the editor.  The JavaScript it is written in is modelled with explicit
    state passing: a store holds the schema objects of the editing engine and
    the attribute objects the factory allocates, and a thrown exception is an
    abrupt completion. *)

From Stdlib Require Import String Ascii ZArith List.
From stdpp Require Import base option list strings gmap.

Local Open Scope string_scope.

(** ** The module [./types] *)

(** The module [./types] is not among the sources.  The two constants the
    factory imports from it are modelled from the specification: the
    enumeration holds the action identifiers the specification lists, each
    with the key under which the dispatch table and the schema know it, and
    the level mapping holds the numeric levels 1, 2 and 3. *)
Module EditorMenuTypes.
(** Modelled from the spec: the member [Strong] (bold) of the enumeration. *)
Definition Strong : string := "strong".
(** Modelled from the spec: the member [Italic] of the enumeration. *)
Definition Italic : string := "em".
(** Modelled from the spec: the member [HeaderLevel1] of the enumeration. *)
Definition HeaderLevel1 : string := "headerlevel1".
(** Modelled from the spec: the member [HeaderLevel2] of the enumeration. *)
Definition HeaderLevel2 : string := "headerlevel2".
(** Modelled from the spec: the member [HeaderLevel3] of the enumeration. *)
Definition HeaderLevel3 : string := "headerlevel3".
(** Modelled from the spec: the member [Blockquote] of the enumeration. *)
Definition Blockquote : string := "blockquote".
(** Modelled from the spec: the member [OrderedList] of the enumeration. *)
Definition OrderedList : string := "ordered_list".
(** Modelled from the spec: the member [BulletList] of the enumeration. *)
Definition BulletList : string := "bullet_list".
(** Modelled from the spec: the member [Link] of the enumeration. *)
Definition Link : string := "link".

(** Modelled from the spec: [Object.values(EditorMenuTypes)], the closed set
    of action identifiers, in the order the specification lists them. *)
Definition values : list string :=
  [Strong; Italic; HeaderLevel1; HeaderLevel2; HeaderLevel3;
   Blockquote; OrderedList; BulletList; Link].
End EditorMenuTypes.

Module levelMapping.
(** Modelled from the spec: [levelMapping.one], the level of heading 1. *)
Definition one : Z := 1.
(** Modelled from the spec: [levelMapping.two], the level of heading 2. *)
Definition two : Z := 2.
(** Modelled from the spec: [levelMapping.three], the level of heading 3. *)
Definition three : Z := 3.
End levelMapping.

(** ** JavaScript values *)

(** The double quote character of the error messages. *)
Definition dquote : string := String (ascii_of_nat 34) EmptyString.

(** A template literal with one quoted hole: [`before "${hole}" after`]. *)
Definition quoted (before hole after : string) : string :=
  before ++ dquote ++ hole ++ dquote ++ after.

(** What a [throw] carries.  The factory only throws [new Error(message)];
    a [TypeError] is what the runtime raises when a property is read from
    [undefined]. *)
Inductive Exception :=
| Error (message : string)
| TypeError (message : string).

(** An optional string parameter used as a condition: [undefined] and the
    empty string are falsy. *)
Definition truthyString (s : option string) : option string :=
  match s with
  | Some (String _ _ as v) => Some v
  | _ => None
  end.

(** An optional number used as a condition: [undefined] and [0] are falsy.
    The numbers are the whole numbers, as the heading levels are; what is
    not a whole number, [NaN] among it, is not modelled. *)
Definition truthyNumber (n : option Z) : option Z :=
  match n with
  | Some v => if Z.eqb v 0 then None else Some v
  | None => None
  end.

(** The property values of the attribute objects [{ href: url }] and
    [{ level: level }]. *)
Inductive Value :=
| VString (s : string)
| VNumber (n : Z).

(** [array.includes(x)] on an array of strings. *)
Definition includes (array : list string) (x : string) : bool :=
  existsb (String.eqb x) array.

(** How a call ends: with a value, or abruptly with what was thrown. *)
Inductive Completion (A : Type) :=
| Normal (a : A)
| Throw (e : Exception).
Arguments Normal {A} a.
Arguments Throw {A} e.

(** References to the schema objects and to the attribute objects. *)
Abbreviation SchemaRef := nat.
Abbreviation AttrsRef := nat.

Section Factory.

(** The mark types and node types of the editing engine are handles the
    factory never looks into. *)
Context {MarkType NodeType : Type}.

(** [schema.marks] and [schema.nodes]: objects without a prototype, used
    as tables from a name to a handle. *)
Record Schema := mkSchema {
  marks : gmap string MarkType;
  nodes : gmap string NodeType;
}.

(** The memory the factory runs in: the schema objects, which the editing
    engine owns, and the attribute objects created by object literals, in
    the order of their creation. *)
Record Store := mkStore {
  schemas : gmap SchemaRef Schema;
  objects : list (gmap string Value);
}.

(** The commands of [prosemirror-commands] and [prosemirror-schema-list]:
    each is a closure over the handle and the attribute object it was
    given, a missing second argument being [None]. *)
Inductive Command :=
| toggleMark (markType : MarkType) (attrs : option AttrsRef)
| setBlockType (nodeType : NodeType) (attrs : option AttrsRef)
| wrapIn (nodeType : NodeType)
| wrapInList (listType : NodeType).

(** *** Computations: a store is threaded, a [throw] ends the call *)

Definition M (A : Type) : Type := Store → Completion A * Store.

Global Instance M_ret : MRet M := λ A a σ, (Normal a, σ).

Global Instance M_bind : MBind M := λ A B k m σ,
  match m σ with
  | (Normal a, σ') => k a σ'
  | (Throw e, σ') => (Throw e, σ')
  end.

Definition throw {A} (e : Exception) : M A := λ σ, (Throw e, σ).

(** Reading a property of the schema object behind a reference; a reference
    to no schema object stands for a factory that was given [undefined]. *)
Definition readSchema (schema : SchemaRef) (property : string) : M Schema :=
  λ σ, match schemas σ !! schema with
       | Some s => (Normal s, σ)
       | None =>
           (Throw (TypeError
              ("Cannot read properties of undefined (reading '"
                 ++ property ++ "')")), σ)
       end.

(** An object literal: a new object, behind a reference no one else has. *)
Definition newObject (fields : gmap string Value) : M AttrsRef :=
  λ σ, (Normal (length (objects σ)),
        {| schemas := schemas σ; objects := objects σ ++ [fields] |}).

(** *** The command constructors *)

Definition createToggleMarkCommand
    (schema : SchemaRef) (markName : string) (url : option string)
    : M Command :=
  s ← readSchema schema "marks";
  match marks s !! markName with
  | None => throw (Error (quoted "Mark " markName " not found in schema"))
  | Some markType =>
      match (if String.eqb markName EditorMenuTypes.Link
             then truthyString url else None) with
      | Some href =>
          attrs ← newObject {[ "href" := VString href ]};
          mret (toggleMark markType (Some attrs))
      | None => mret (toggleMark markType None)
      end
  end.

Definition createSetNodeTypeCommand
    (schema : SchemaRef) (nodeType : string) (level : option Z)
    : M Command :=
  s ← readSchema schema "nodes";
  match nodes s !! nodeType with
  | None =>
      throw (Error (quoted "Node type " nodeType " not found in schema"))
  | Some type =>
      match (if String.eqb nodeType "heading"
             then truthyNumber level else None) with
      | Some l =>
          attrs ← newObject {[ "level" := VNumber l ]};
          mret (setBlockType type (Some attrs))
      | None => mret (setBlockType type None)
      end
  end.

Definition createWrapInCommand (schema : SchemaRef) (nodeType : string)
    : M Command :=
  s ← readSchema schema "nodes";
  match nodes s !! nodeType with
  | None =>
      throw (Error (quoted "Node type " nodeType " not found in schema"))
  | Some type => mret (wrapIn type)
  end.

Definition createListCommand (schema : SchemaRef) (listType : string)
    : M Command :=
  s ← readSchema schema "nodes";
  match nodes s !! listType with
  | None =>
      throw (Error (quoted "List type " listType " not found in schema"))
  | Some type => mret (wrapInList type)
  end.

(** *** The dispatch table *)

Local Abbreviation CommandFunction :=
  (SchemaRef → string → option string → M Command).

(** The entries that name a constructor of two parameters are called with
    three arguments like the others; the third is dropped. *)
Definition commandMapping : gmap string CommandFunction :=
  list_to_map [
    ("strong", createToggleMarkCommand);
    ("em", createToggleMarkCommand);
    ("underline", createToggleMarkCommand);
    ("headerlevel1", λ schema _ _,
       createSetNodeTypeCommand schema "heading" (Some levelMapping.one));
    ("headerlevel2", λ schema _ _,
       createSetNodeTypeCommand schema "heading" (Some levelMapping.two));
    ("headerlevel3", λ schema _ _,
       createSetNodeTypeCommand schema "heading" (Some levelMapping.three));
    ("blockquote", λ schema mark _, createWrapInCommand schema mark);
    ("ordered_list", λ schema mark _, createListCommand schema mark);
    ("bullet_list", λ schema mark _, createListCommand schema mark);
    ("link", createToggleMarkCommand)
  ].

(** *** The factory *)

Record MenuCommandFactory := { schema : SchemaRef }.

Definition constructor (schema : SchemaRef) : MenuCommandFactory :=
  {| schema := schema |}.

(** The body of [getCommand], over the two module constants it reads: the
    values of the enumeration and the dispatch table.  The table is read by
    own property: what an object literal inherits is not looked at, no
    action being named like a property of [Object.prototype]. *)
Definition getCommandWith
    (menuTypes : list string) (mapping : gmap string CommandFunction)
    (this : MenuCommandFactory) (mark : string) (url : option string)
    : M Command :=
  if negb (includes menuTypes mark) then
    throw (Error (quoted "The Menu Type " mark " is not supported"))
  else
    match mapping !! mark with
    | None => throw (Error (quoted "The Mark " mark " is not supported"))
    | Some commandFunc => commandFunc (schema this) mark url
    end.

Definition getCommand
    (this : MenuCommandFactory) (mark : string) (url : option string)
    : M Command :=
  getCommandWith EditorMenuTypes.values commandMapping this mark url.

(** The properties of the object literal are evaluated in the order they
    are written; the first [throw] ends the call. *)
Definition buildKeymap (this : MenuCommandFactory)
    : M (gmap string Command) :=
  modB ← getCommand this EditorMenuTypes.Strong None;
  modI ← getCommand this EditorMenuTypes.Italic None;
  modShift1 ← getCommand this EditorMenuTypes.HeaderLevel1 None;
  modShift2 ← getCommand this EditorMenuTypes.HeaderLevel2 None;
  modShift3 ← getCommand this EditorMenuTypes.HeaderLevel3 None;
  mret (list_to_map [
    ("Mod-B", modB);
    ("Mod-I", modI);
    ("Mod-Shift-1", modShift1);
    ("Mod-Shift-2", modShift2);
    ("Mod-Shift-3", modShift3)
  ]).

End Factory.

Arguments Schema : clear implicits.
Arguments Store : clear implicits.
Arguments Command : clear implicits.
Arguments M : clear implicits.

(** The type of the entries of the dispatch table. *)
Abbreviation CommandFunction MarkType NodeType :=
  (SchemaRef → string → option string
   → M MarkType NodeType (Command MarkType NodeType)).

(** ** What the specification speaks of *)

(** The three fault kinds of the specification. *)
Inductive FaultKind :=
| UnsupportedAction
| MissingDispatchStrategy
| CapabilityUnavailable.

(** The fault kind a caller reads off a caught exception: the messages of
    the three kinds begin differently. *)
Definition faultKind (e : Exception) : option FaultKind :=
  match e with
  | Error message =>
      if String.prefix "The Menu Type " message then Some UnsupportedAction
      else if String.prefix "The Mark " message
      then Some MissingDispatchStrategy
      else if String.prefix "Mark " message
              || String.prefix "Node type " message
              || String.prefix "List type " message
      then Some CapabilityUnavailable
      else None
  | TypeError _ => None
  end.

(** The four resolution strategies and the actions the dispatch table gives
    each of them: toggling a text decoration, setting the block type to a
    heading of some level, wrapping in a container, wrapping in a list. *)
Definition toggleActions : list string := ["strong"; "em"; "underline"; "link"].
Definition headingActions : list (string * Z) :=
  [("headerlevel1", 1%Z); ("headerlevel2", 2%Z); ("headerlevel3", 3%Z)].
Definition containerActions : list string := ["blockquote"].
Definition listActions : list string := ["ordered_list"; "bullet_list"].

(** A primitive of the capability table: an entry of the marks table or of
    the nodes table. *)
Inductive Primitive :=
| MarkPrimitive (name : string)
| NodePrimitive (name : string).

(** The primitive the strategy of an action looks up: a text decoration under
    the name of the action itself, every heading under [heading], a container
    or a list under the name of the action. *)
Definition requiredPrimitive (mark : string) : option Primitive :=
  if includes toggleActions mark then Some (MarkPrimitive mark)
  else if includes headingActions.*1 mark then Some (NodePrimitive "heading")
  else if includes (containerActions ++ listActions) mark
  then Some (NodePrimitive mark)
  else None.

(** The primitives the dispatch table refers to. *)
Definition requiredMarks : list string := ["strong"; "em"; "underline"; "link"].
Definition requiredNodes : list string :=
  ["heading"; "blockquote"; "ordered_list"; "bullet_list"].

Section Observations.

Context {MarkType NodeType : Type}.

(** A fully populated capability table. *)
Definition fullyPopulated (s : Schema MarkType NodeType) : Prop :=
  (∀ name, name ∈ requiredMarks → is_Some (marks s !! name))
  ∧ (∀ name, name ∈ requiredNodes → is_Some (nodes s !! name)).

(** The capability table holds the primitive. *)
Definition available (s : Schema MarkType NodeType) (p : Primitive) : Prop :=
  match p with
  | MarkPrimitive name => is_Some (marks s !! name)
  | NodePrimitive name => is_Some (nodes s !! name)
  end.

(** The attribute object a command was built with. *)
Definition attrsOf (c : Command MarkType NodeType) : option AttrsRef :=
  match c with
  | toggleMark _ attrs | setBlockType _ attrs => attrs
  | wrapIn _ | wrapInList _ => None
  end.

(** The command without its attribute object: the strategy and the handle. *)
Definition bare (c : Command MarkType NodeType) : Command MarkType NodeType :=
  match c with
  | toggleMark markType _ => toggleMark markType None
  | setBlockType nodeType _ => setBlockType nodeType None
  | wrapIn _ | wrapInList _ => c
  end.

(** The parameters a command carries: what its attribute object holds in the
    given store, if it has one. *)
Definition attributes (σ : Store MarkType NodeType)
    (c : Command MarkType NodeType) : option (option (gmap string Value)) :=
  (λ r, objects σ !! r) <$> attrsOf c.

(** The command over another attribute object. *)
Definition withAttrs (c : Command MarkType NodeType) (r : AttrsRef)
    : Command MarkType NodeType :=
  match c with
  | toggleMark markType _ => toggleMark markType (Some r)
  | setBlockType nodeType _ => setBlockType nodeType (Some r)
  | wrapIn _ | wrapInList _ => c
  end.

(** The store after one more object literal. *)
Definition allocated (σ : Store MarkType NodeType) (o : gmap string Value)
    : Store MarkType NodeType :=
  {| schemas := schemas σ; objects := objects σ ++ [o] |}.

(** One parameter of a command, by name. *)
Definition attribute (σ : Store MarkType NodeType)
    (c : Command MarkType NodeType) (name : string) : option Value :=
  r ← attrsOf c; o ← objects σ !! r; o !! name.

(** Two commands a caller cannot tell apart by what they do: the same
    strategy on the same handle with the same parameters. *)
Definition sameDescriptor (σ : Store MarkType NodeType)
    (c1 c2 : Command MarkType NodeType) : Prop :=
  bare c1 = bare c2 ∧ attributes σ c1 = attributes σ c2.

(** Two completions that are equal in that sense. *)
Definition sameCompletion (σ : Store MarkType NodeType)
    (r1 r2 : Completion (Command MarkType NodeType)) : Prop :=
  match r1, r2 with
  | Normal c1, Normal c2 => sameDescriptor σ c1 c2
  | Throw e1, Throw e2 => e1 = e2
  | _, _ => False
  end.

(** The two commands hold no object in common. *)
Definition independent (c1 c2 : Command MarkType NodeType) : Prop :=
  ∀ r, attrsOf c1 = Some r → attrsOf c2 ≠ Some r.

(** [getCommand] throws on the given action. *)
Definition fails (this : MenuCommandFactory) (σ : Store MarkType NodeType)
    (mark : string) (e : Exception) : Prop :=
  ∃ σ', getCommand this mark None σ = (Throw e, σ').

(** Resolving a list of actions in order, each without a URL: the first
    [throw] ends it. *)
Fixpoint resolveAll (this : MenuCommandFactory) (actions : list string)
    : M MarkType NodeType (list (Command MarkType NodeType)) :=
  match actions with
  | [] => mret []
  | mark :: rest =>
      c ← getCommand this mark None;
      cs ← resolveAll this rest;
      mret (c :: cs)
  end.

End Observations.

(** The heading actions, each with the level the specification gives it. *)
Definition headerLevels : list (string * Z) :=
  [(EditorMenuTypes.HeaderLevel1, 1%Z); (EditorMenuTypes.HeaderLevel2, 2%Z);
   (EditorMenuTypes.HeaderLevel3, 3%Z)].

(** The shortcuts of [buildKeymap]: each key with the action bound to it, in
    the order of the object literal. *)
Definition shortcuts : list (string * string) :=
  [("Mod-B", EditorMenuTypes.Strong); ("Mod-I", EditorMenuTypes.Italic);
   ("Mod-Shift-1", EditorMenuTypes.HeaderLevel1);
   ("Mod-Shift-2", EditorMenuTypes.HeaderLevel2);
   ("Mod-Shift-3", EditorMenuTypes.HeaderLevel3)].

(** The actions [buildKeymap] binds, in the order it resolves them. *)
Definition shortcutActions : list string := shortcuts.*2.

(** ** Sample stores, with strings for handles *)

Definition fullSchema : Schema string string :=
  {| marks := list_to_map [("strong", "<strong>"); ("em", "<em>");
                           ("underline", "<u>"); ("link", "<a>")];
     nodes := list_to_map [("heading", "<h>"); ("blockquote", "<blockquote>");
                           ("ordered_list", "<ol>"); ("bullet_list", "<ul>")]
  |}.

(** A document configuration without bold. *)
Definition schemaWithoutStrong : Schema string string :=
  {| marks := delete "strong" (marks fullSchema); nodes := nodes fullSchema |}.

(** A document configuration without bold and without italic. *)
Definition schemaWithoutStrongAndEm : Schema string string :=
  {| marks := delete "em" (marks schemaWithoutStrong);
     nodes := nodes fullSchema |}.

Definition storeOf (s : Schema string string) : Store string string :=
  {| schemas := {[ 0%nat := s ]}; objects := [] |}.

Definition factory : MenuCommandFactory := constructor 0%nat.

(** A document configuration without headings. *)
Definition schemaWithoutHeading : Schema string string :=
  {| marks := marks fullSchema; nodes := delete "heading" (nodes fullSchema) |}.


(** * The chip set component

    The component [limel-chip-set] of [chip-set.tsx]: its state, its
    handlers and lifecycle methods, and what it renders.  A call of a method
    takes the component from one state to the next and adds to a log what
    the component does to the outside: the events it emits, and the calls it
    makes on the browser's events and elements and on the chip set and text
    field of the Material library. *)
Module ChipSet.

(** The values of the JavaScript runtime that the component passes on
    without looking into them, and the three operations of the runtime it
    applies to them.  [None] is [undefined]. *)
Class Runtime := {
  JsValue : Type;
  (** [`${v}`], the string a template literal makes of a value *)
  templateString : option JsValue → string;
  (** a value used as a condition *)
  toBoolean : option JsValue → bool;
  (** a boolean as a value *)
  ofBoolean : bool → JsValue;
  (** [s.trim()] *)
  trim : string → string;
}.

(** The type of chip set, [undefined] being [None]. *)
Inductive ChipSetType := choice | filter | input.

Definition typeName (t : ChipSetType) : string :=
  match t with
  | choice => "choice"
  | filter => "filter"
  | input => "input"
  end.

(** The detail of the events of the Material chip set: the selection event
    extends the interaction event. *)
Record MDCChipInteractionEvent := { chipId : string }.
Record MDCChipSelectionEvent := {
  interaction :> MDCChipInteractionEvent;
  selected : bool;
}.

(** The input event of the browser, with [event.target.value]. *)
Record InputEvent := { target_value : string }.

(** The elements of the shadow root that [querySelector] finds. *)
Abbreviation Element := nat.

(** The objects of the Material library, each on its root element. *)
Record MDCChipSet := { chipSetRoot : Element }.
Record MDCTextField := { textFieldRoot : Element }.

(** The methods of the component that are given to others as listeners; the
    constructor binds each once, so that each is one function throughout. *)
Inductive Handler :=
| handleInteraction_
| handleSelection_
| handleRemove_
| handleTextFieldFocus_
| handleInputBlur_
| handleTextInput_
| inputFieldOnChange_
| catchInputChipClicks_.

(** The callbacks given to [setTimeout]. *)
Inductive Task := emitStopEdit.

(** The interface [Chip] is declared elsewhere in the library: a chip is the
    object it is at run time, a table from property names to values. *)
Abbreviation Chip := (gmap string JsValue).

Section Component.

Context `{Runtime}.

(** [`${chip.id}`] *)
Definition idString (chip : Chip) : string := templateString (chip !! "id").

(** What the component does to the outside. *)
Inductive Effect :=
| interact_emit (chip : option Chip)
| change_emit (detail : Chip + list Chip)
| startEdit_emit
| stopEdit_emit
| input_emit (text : string)
| stopPropagation
| focus
| setTimeout (task : Task)
| new_MDCChipSet (chipSet : MDCChipSet)
| shouldRemoveOnTrailingIconClick_false (chipSet : MDCChipSet)
| listen (chipSet : MDCChipSet) (event : string) (handler : Handler)
| unlisten (chipSet : MDCChipSet) (event : string) (handler : Handler)
| destroy_MDCChipSet (chipSet : MDCChipSet)
| new_MDCTextField (textField : MDCTextField)
| destroy_MDCTextField (textField : MDCTextField).

(** The properties and the state of the component, and the two objects of
    the Material library it keeps. *)
Record ChipSet := {
  value : list Chip;
  type : option ChipSetType;
  label : option string;
  disabled : bool;
  required : bool;
  searchLabel : option string;
  emptyInputOnBlur : bool;
  editMode : bool;
  textValue : string;
  blurred : bool;
  mdcChipSet : option MDCChipSet;
  mdcTextField : option MDCTextField;
}.

(** The component as its class initialises it. *)
Definition constructor : ChipSet := {|
  value := [];
  type := None;
  label := None;
  disabled := false;
  required := false;
  searchLabel := None;
  emptyInputOnBlur := true;
  editMode := false;
  textValue := EmptyString;
  blurred := false;
  mdcChipSet := None;
  mdcTextField := None;
|}.

(** The component, the log of what it has done, oldest first, and the
    callbacks that wait in the timer queue. *)
Record World := {
  this : ChipSet;
  effects : list Effect;
  timers : list Task;
}.

(** *** Assignments *)

Definition set_editMode (b : bool) (w : World) : World :=
  {| this := {| value := value (this w); type := type (this w);
                label := label (this w); disabled := disabled (this w);
                required := required (this w);
                searchLabel := searchLabel (this w);
                emptyInputOnBlur := emptyInputOnBlur (this w);
                editMode := b;
                textValue := textValue (this w); blurred := blurred (this w);
                mdcChipSet := mdcChipSet (this w);
                mdcTextField := mdcTextField (this w) |};
     effects := effects w; timers := timers w |}.

Definition set_textValue (s : string) (w : World) : World :=
  {| this := {| value := value (this w); type := type (this w);
                label := label (this w); disabled := disabled (this w);
                required := required (this w);
                searchLabel := searchLabel (this w);
                emptyInputOnBlur := emptyInputOnBlur (this w);
                editMode := editMode (this w);
                textValue := s; blurred := blurred (this w);
                mdcChipSet := mdcChipSet (this w);
                mdcTextField := mdcTextField (this w) |};
     effects := effects w; timers := timers w |}.

Definition set_blurred (b : bool) (w : World) : World :=
  {| this := {| value := value (this w); type := type (this w);
                label := label (this w); disabled := disabled (this w);
                required := required (this w);
                searchLabel := searchLabel (this w);
                emptyInputOnBlur := emptyInputOnBlur (this w);
                editMode := editMode (this w);
                textValue := textValue (this w); blurred := b;
                mdcChipSet := mdcChipSet (this w);
                mdcTextField := mdcTextField (this w) |};
     effects := effects w; timers := timers w |}.

Definition set_mdcChipSet (c : MDCChipSet) (w : World) : World :=
  {| this := {| value := value (this w); type := type (this w);
                label := label (this w); disabled := disabled (this w);
                required := required (this w);
                searchLabel := searchLabel (this w);
                emptyInputOnBlur := emptyInputOnBlur (this w);
                editMode := editMode (this w);
                textValue := textValue (this w); blurred := blurred (this w);
                mdcChipSet := Some c;
                mdcTextField := mdcTextField (this w) |};
     effects := effects w; timers := timers w |}.

Definition set_mdcTextField (t : MDCTextField) (w : World) : World :=
  {| this := {| value := value (this w); type := type (this w);
                label := label (this w); disabled := disabled (this w);
                required := required (this w);
                searchLabel := searchLabel (this w);
                emptyInputOnBlur := emptyInputOnBlur (this w);
                editMode := editMode (this w);
                textValue := textValue (this w); blurred := blurred (this w);
                mdcChipSet := mdcChipSet (this w);
                mdcTextField := Some t |};
     effects := effects w; timers := timers w |}.

(** The consumer assigns the properties [value] and [type]. *)
Definition set_value (v : list Chip) (w : World) : World :=
  {| this := {| value := v; type := type (this w);
                label := label (this w); disabled := disabled (this w);
                required := required (this w);
                searchLabel := searchLabel (this w);
                emptyInputOnBlur := emptyInputOnBlur (this w);
                editMode := editMode (this w);
                textValue := textValue (this w); blurred := blurred (this w);
                mdcChipSet := mdcChipSet (this w);
                mdcTextField := mdcTextField (this w) |};
     effects := effects w; timers := timers w |}.

Definition set_type (t : option ChipSetType) (w : World) : World :=
  {| this := {| value := value (this w); type := t;
                label := label (this w); disabled := disabled (this w);
                required := required (this w);
                searchLabel := searchLabel (this w);
                emptyInputOnBlur := emptyInputOnBlur (this w);
                editMode := editMode (this w);
                textValue := textValue (this w); blurred := blurred (this w);
                mdcChipSet := mdcChipSet (this w);
                mdcTextField := mdcTextField (this w) |};
     effects := effects w; timers := timers w |}.

(** One more entry in the log. *)
Definition does (e : Effect) (w : World) : World :=
  {| this := this w; effects := effects w ++ [e]; timers := timers w |}.

(** [setTimeout(task, 0)] *)
Definition later (task : Task) (w : World) : World :=
  {| this := this w; effects := effects w ++ [setTimeout task];
     timers := timers w ++ [task] |}.

(** *** The public methods *)

Definition getEditMode (w : World) : bool := editMode (this w).

(** [input] is what [querySelector('input')] finds in the shadow root. *)
Definition setFocus (input : option Element) (w : World)
    : Completion unit * World :=
  let w := set_editMode true w in
  match input with
  | Some _ => (Normal tt, does focus w)
  | None =>
      (Throw (TypeError "Cannot read properties of null (reading 'focus')"),
       w)
  end.

Definition emptyInput (w : World) : World := set_textValue EmptyString w.

(** *** The Material chip set *)

(** [root] is what [querySelector('.mdc-chip-set')] finds. *)
Definition createMDCChipSet (root : Element) (w : World) : World :=
  let chipSet := {| chipSetRoot := root |} in
  let w := set_mdcChipSet chipSet (does (new_MDCChipSet chipSet) w) in
  let w := does (shouldRemoveOnTrailingIconClick_false chipSet) w in
  let w :=
    match type (this w) with
    | None | Some input =>
        does (listen chipSet "MDCChip:interaction" handleInteraction_) w
    | _ => w
    end in
  let w :=
    match type (this w) with
    | Some choice | Some filter =>
        does (listen chipSet "MDCChip:selection" handleSelection_) w
    | _ => w
    end in
  does (listen chipSet "MDCChip:trailingIconInteraction" handleRemove_) w.

Definition destroyMDCChipSet (w : World) : World :=
  match mdcChipSet (this w) with
  | Some chipSet =>
      let w :=
        does (unlisten chipSet "MDCChip:interaction" handleInteraction_) w in
      let w :=
        does (unlisten chipSet "MDCChip:selection" handleSelection_) w in
      let w :=
        does (unlisten chipSet "MDCChip:trailingIconInteraction"
                handleRemove_) w in
      does (destroy_MDCChipSet chipSet) w
  | None => w
  end.

(** *** The lifecycle *)

(** [textField] is what [querySelector('.mdc-text-field')] finds. *)
Definition componentDidLoad (textField chipSet : Element) (w : World)
    : World :=
  let w :=
    match type (this w) with
    | Some input =>
        let t := {| textFieldRoot := textField |} in
        set_mdcTextField t (does (new_MDCTextField t) w)
    | _ => w
    end in
  createMDCChipSet chipSet w.

Definition componentWillUpdate (w : World) : World := destroyMDCChipSet w.

Definition componentDidUpdate (chipSet : Element) (inputElement : option Element)
    (w : World) : World :=
  let w := createMDCChipSet chipSet w in
  match inputElement with
  | Some _ => if editMode (this w) then does focus w else w
  | None => w
  end.

Definition componentDidUnload (w : World) : World :=
  let w := destroyMDCChipSet w in
  match mdcTextField (this w) with
  | Some t => does (destroy_MDCTextField t) w
  | None => w
  end.

(** *** The watcher and the handlers *)

Definition handleChangeChips (w : World) : World :=
  set_textValue EmptyString w.

(** [undefined], [false] or [true]. *)
Definition isInvalid (w : World) : option bool :=
  if negb (required (this w)) then None
  else if negb (blurred (this w)) then None
  else Some (match value (this w) with [] => true | _ => false end).

Definition inputFieldOnChange (w : World) : World := does stopPropagation w.

Definition handleTextFieldFocus (w : World) : World :=
  does startEdit_emit (set_editMode true w).

Definition handleInputBlur (w : World) : World :=
  let w :=
    if emptyInputOnBlur (this w) then set_textValue EmptyString w else w in
  let w := set_editMode false w in
  let w := set_blurred true w in
  later emitStopEdit w.

(** The callback of the timer that is first in the queue. *)
Definition runTimer (w : World) : World :=
  match timers w with
  | emitStopEdit :: rest =>
      {| this := this w; effects := effects w ++ [stopEdit_emit];
         timers := rest |}
  | [] => w
  end.

Definition handleTextInput (event : InputEvent) (w : World) : World :=
  let w := does stopPropagation w in
  let w := set_textValue (target_value event) w in
  does (input_emit (match target_value event with
                    | EmptyString => EmptyString
                    | text => trim text
                    end)) w.

Definition handleInteraction (event : MDCChipInteractionEvent) (w : World)
    : World :=
  let chip :=
    List.find (λ item, String.eqb (idString item) (chipId event))
      (value (this w)) in
  does (interact_emit chip) w.

(** The spread of [undefined] has no properties. *)
Definition handleSelection (event : MDCChipSelectionEvent) (w : World)
    : World :=
  let chip :=
    List.find (λ item, String.eqb (idString item) (chipId event))
      (value (this w)) in
  let chip : Chip :=
    <[ "selected" := ofBoolean (selected event) ]> (default ∅ chip) in
  does (change_emit (inl chip)) w.

Definition handleRemove (event : MDCChipInteractionEvent) (w : World)
    : World :=
  let newValue :=
    List.filter (λ chip, negb (String.eqb (idString chip) (chipId event)))
      (value (this w)) in
  does (change_emit (inr newValue)) w.

Definition catchInputChipClicks (w : World) : World := does stopPropagation w.

(** *** What is rendered

    The virtual nodes that the JSX of the component builds with [h]: an
    element with its properties and children, the string or the value
    written between braces, an array of nodes, and [null]. *)

Local Set Warnings "-register-all".

Inductive PropValue :=
| PString (s : string)
| POptionalString (s : option string)
| PBoolean (b : bool)
| PValue (v : option JsValue)
| PClasses (classes : list (string * option bool))
| PStyle (style : list (string * option JsValue))
| PHandler (handler : Handler).

Inductive VNode :=
| h (tag : string) (props : list (string * PropValue)) (children : list VNode)
| string_ (s : option string)
| value_ (v : option JsValue)
| array_ (items : list VNode)
| null.

Definition renderIcon (chip : Chip) : VNode :=
  let style :=
    if toBoolean (chip !! "iconColor")
    then [("--icon-background-color", chip !! "iconColor")]
    else [] in
  h "limel-icon"
    [("class", PString "mdc-chip__icon mdc-chip__icon--leading");
     ("name", PValue (chip !! "icon"));
     ("style", PStyle style);
     ("size", PString "small");
     ("badge", PBoolean true)]
    [].

Definition renderTrailingIcon : VNode :=
  h "limel-icon"
    [("class", PString "mdc-chip__icon mdc-chip__icon--trailing");
     ("role", PString "button");
     ("name", PString "multiply")]
    [].

Definition renderChoiceChip (chip : Chip) : VNode :=
  h "div"
    [("class", PString ("mdc-chip " ++ if toBoolean (chip !! "selected")
                                      then "mdc-chip--selected"
                                      else EmptyString));
     ("tabindex", PString "0");
     ("id", PString (idString chip))]
    [if toBoolean (chip !! "icon") then renderIcon chip else null;
     h "div" [("class", PString "mdc-chip__text")] [value_ (chip !! "text")]].

Definition renderFilterChip (chip : Chip) : VNode :=
  h "div"
    [("class", PString ("mdc-chip " ++ if toBoolean (chip !! "selected")
                                      then "mdc-chip--selected"
                                      else EmptyString));
     ("tabindex", PString "0");
     ("id", PString (idString chip))]
    [h "div" [("class", PString "mdc-chip__checkmark")]
       [h "svg"
          [("class", PString "mdc-chip__checkmark-svg");
           ("viewBox", PString "-2 -3 30 30")]
          [h "path"
             [("class", PString "mdc-chip__checkmark-path");
              ("fill", PString "none");
              ("stroke", PString "black");
              ("d", PString "M1.73,12.91 8.1,19.28 22.79,4.59")]
             []]];
     h "div" [("class", PString "mdc-chip__text")] [value_ (chip !! "text")]].

Definition renderDefaultChip (chip : Chip) : VNode :=
  h "div"
    [("class", PString "mdc-chip");
     ("tabindex", PString "0");
     ("id", PString (idString chip))]
    [if toBoolean (chip !! "icon") then renderIcon chip else null;
     h "div" [("class", PString "mdc-chip__text")] [value_ (chip !! "text")]].

Definition renderInputChip (chip : Chip) : VNode :=
  h "div"
    [("class", PString "mdc-chip");
     ("id", PString (idString chip));
     ("onClick", PHandler catchInputChipClicks_)]
    [if toBoolean (chip !! "icon") then renderIcon chip else null;
     h "div" [("class", PString "mdc-chip__text")] [value_ (chip !! "text")];
     if toBoolean (chip !! "removable") then renderTrailingIcon else null].

Definition renderChip (cs : ChipSet) (chip : Chip) : VNode :=
  match type cs with
  | Some choice => renderChoiceChip chip
  | Some filter => renderFilterChip chip
  | _ => renderDefaultChip chip
  end.

Definition renderInputChips (w : World) : VNode :=
  let cs := this w in
  h "div"
    [("class", PClasses [("mdc-text-field", Some true);
                         ("mdc-text-field--invalid", isInvalid w)]);
     ("onClick", PHandler handleTextFieldFocus_)]
    [h "div" [("class", PString "mdc-chip-set mdc-chip-set--input")]
       [array_ (map renderInputChip (value cs));
        h "input"
          [("type", PString "text");
           ("id", PString "my-text-field");
           ("required", PBoolean (required cs));
           ("disabled", PBoolean (disabled cs));
           ("class", PString "mdc-text-field__input");
           ("value", PString (textValue cs));
           ("onBlur", PHandler handleInputBlur_);
           ("onFocus", PHandler handleTextFieldFocus_);
           ("onInput", PHandler handleTextInput_);
           ("onChange", PHandler inputFieldOnChange_);
           ("placeholder", POptionalString (searchLabel cs))]
          []];
     h "label"
       [("class", PClasses
           [("mdc-floating-label", Some true);
            ("mdc-text-field--disabled", Some (disabled cs));
            ("mdc-text-field--required", Some (required cs));
            ("force-float",
             Some (match value cs with [] => editMode cs | _ => true end))]);
        ("htmlFor", PString "my-text-field")]
       [string_ (label cs)];
     h "div" [("class", PString "mdc-line-ripple")] []].

Definition render (w : World) : VNode :=
  let cs := this w in
  match type cs with
  | Some input => renderInputChips w
  | _ =>
      let typeClass :=
        match type cs with
        | Some t => "mdc-chip-set--" ++ typeName t
        | None => EmptyString
        end in
      h "div" [("class", PString ("mdc-chip-set " ++ typeClass))]
        [array_ (map (renderChip cs) (value cs))]
  end.

End Component.


(** ** What is observed of the component *)

Section Observed.

Context `{Runtime}.

(** *** Runs: the calls the browser, the framework and the consumer make *)

Inductive Call :=
| call_setFocus (inputElement : option Element)
| call_emptyInput
| call_componentDidLoad (textField chipSet : Element)
| call_componentWillUpdate
| call_componentDidUpdate (chipSet : Element) (inputElement : option Element)
| call_componentDidUnload
| call_handleChangeChips
| call_inputFieldOnChange
| call_handleTextFieldFocus
| call_handleInputBlur
| call_handleTextInput (event : InputEvent)
| call_handleInteraction (event : MDCChipInteractionEvent)
| call_handleSelection (event : MDCChipSelectionEvent)
| call_handleRemove (event : MDCChipInteractionEvent)
| call_catchInputChipClicks
| call_runTimer
| assign_value (v : list Chip)
| assign_type (t : option ChipSetType).

(** One call.  A rejected [setFocus] keeps what it did before it threw; an
    assignment of [value] runs the watcher of that property. *)
Definition call (c : Call) (w : World) : World :=
  match c with
  | call_setFocus inputElement => (setFocus inputElement w).2
  | call_emptyInput => emptyInput w
  | call_componentDidLoad textField chipSet =>
      componentDidLoad textField chipSet w
  | call_componentWillUpdate => componentWillUpdate w
  | call_componentDidUpdate chipSet inputElement =>
      componentDidUpdate chipSet inputElement w
  | call_componentDidUnload => componentDidUnload w
  | call_handleChangeChips => handleChangeChips w
  | call_inputFieldOnChange => inputFieldOnChange w
  | call_handleTextFieldFocus => handleTextFieldFocus w
  | call_handleInputBlur => handleInputBlur w
  | call_handleTextInput event => handleTextInput event w
  | call_handleInteraction event => handleInteraction event w
  | call_handleSelection event => handleSelection event w
  | call_handleRemove event => handleRemove event w
  | call_catchInputChipClicks => catchInputChipClicks w
  | call_runTimer => runTimer w
  | assign_value v => handleChangeChips (set_value v w)
  | assign_type t => set_type t w
  end.

Definition run (calls : list Call) (w : World) : World :=
  foldl (λ w c, call c w) w calls.

(** The component when it is created. *)
Definition created : World :=
  {| this := constructor; effects := []; timers := [] |}.

(** A call that is not an assignment by the consumer. *)
Definition ofTheComponent (c : Call) : bool :=
  match c with
  | assign_value _ | assign_type _ => false
  | _ => true
  end.

(** The properties of the component, which the consumer sets. *)
Definition properties (cs : ChipSet) :=
  (value cs, type cs, label cs, disabled cs, required cs, searchLabel cs,
   emptyInputOnBlur cs).

Definition isBlur (c : Call) : bool :=
  match c with call_handleInputBlur => true | _ => false end.

Definition isTextFieldFocus (c : Call) : bool :=
  match c with call_handleTextFieldFocus => true | _ => false end.

Definition isLifecycle (c : Call) : bool :=
  match c with
  | call_componentDidLoad _ _ | call_componentWillUpdate
  | call_componentDidUpdate _ _ | call_componentDidUnload => true
  | _ => false
  end.

(** Whether a call enters or leaves the edit mode. *)
Definition editing (c : Call) : option bool :=
  match c with
  | call_setFocus _ | call_handleTextFieldFocus => Some true
  | call_handleInputBlur => Some false
  | _ => None
  end.

(** *** The phases of the lifecycle *)

Inductive Phase := Created | Loaded | Updating | Unloaded.

(** The phase after a call: the framework loads the component once, wraps
    each rendering after that in [componentWillUpdate] and
    [componentDidUpdate], and unloads it once; the other calls come in any
    phase.  [None] is a call out of that order. *)
Definition nextPhase (p : Phase) (c : Call) : option Phase :=
  match c, p with
  | call_componentDidLoad _ _, Created => Some Loaded
  | call_componentDidLoad _ _, _ => None
  | call_componentWillUpdate, Loaded => Some Updating
  | call_componentWillUpdate, _ => None
  | call_componentDidUpdate _ _, Updating => Some Loaded
  | call_componentDidUpdate _ _, _ => None
  | call_componentDidUnload, Loaded => Some Unloaded
  | call_componentDidUnload, _ => None
  | _, _ => Some p
  end.

Fixpoint phaseAfter (p : Phase) (calls : list Call) : option Phase :=
  match calls with
  | [] => Some p
  | c :: rest =>
      match nextPhase p c with
      | Some p' => phaseAfter p' rest
      | None => None
      end
  end.

(** *** The listeners on the elements

    What the log leaves registered, [listen] being [addEventListener] on the
    root of the chip set, which adds a listener once, and [unlisten] being
    [removeEventListener]. *)

Definition Listener : Type := Element * string * Handler.

Definition sameListener (a b : Listener) : bool :=
  Nat.eqb a.1.1 b.1.1 && String.eqb a.1.2 b.1.2
  && match a.2, b.2 with
     | handleInteraction_, handleInteraction_
     | handleSelection_, handleSelection_
     | handleRemove_, handleRemove_
     | handleTextFieldFocus_, handleTextFieldFocus_
     | handleInputBlur_, handleInputBlur_
     | handleTextInput_, handleTextInput_
     | inputFieldOnChange_, inputFieldOnChange_
     | catchInputChipClicks_, catchInputChipClicks_ => true
     | _, _ => false
     end.

Definition afterEffect (registered : list Listener) (e : Effect)
    : list Listener :=
  match e with
  | listen chipSet event handler =>
      let l := (chipSetRoot chipSet, event, handler) in
      if existsb (sameListener l) registered then registered
      else registered ++ [l]
  | unlisten chipSet event handler =>
      List.filter
        (λ l', negb (sameListener (chipSetRoot chipSet, event, handler) l'))
        registered
  | _ => registered
  end.

Definition listeners (log : list Effect) : list Listener :=
  foldl afterEffect [] log.

(** The listeners of a chip set of the given type on the given root. *)
Definition wiring (root : Element) (t : option ChipSetType) : list Listener :=
  match t with
  | None | Some input => [(root, "MDCChip:interaction", handleInteraction_)]
  | _ => []
  end
  ++ match t with
     | Some choice | Some filter =>
         [(root, "MDCChip:selection", handleSelection_)]
     | _ => []
     end
  ++ [(root, "MDCChip:trailingIconInteraction", handleRemove_)].

(** *** Counting in the log *)

Definition isStopEdit (e : Effect) : bool :=
  match e with stopEdit_emit => true | _ => false end.

Definition isSetTimeout (e : Effect) : bool :=
  match e with setTimeout _ => true | _ => false end.

Definition isStartEdit (e : Effect) : bool :=
  match e with startEdit_emit => true | _ => false end.

Definition isNewChipSet (e : Effect) : bool :=
  match e with new_MDCChipSet _ => true | _ => false end.

Definition isDestroyChipSet (e : Effect) : bool :=
  match e with destroy_MDCChipSet _ => true | _ => false end.

Definition isNewTextField (e : Effect) : bool :=
  match e with new_MDCTextField _ => true | _ => false end.

Definition isDestroyTextField (e : Effect) : bool :=
  match e with destroy_MDCTextField _ => true | _ => false end.

Definition count (p : Effect → bool) (log : list Effect) : nat :=
  length (List.filter p log).

(** What holds of the component and its log in each phase: which objects
    of the Material library it keeps, which listeners are registered, and
    how many of the objects it made it has destroyed. *)
Definition inPhase (p : Phase) (w : World) : Prop :=
  match p with
  | Created =>
      mdcChipSet (this w) = None ∧ mdcTextField (this w) = None
      ∧ listeners (effects w) = []
      ∧ count isNewChipSet (effects w) = count isDestroyChipSet (effects w)
      ∧ count isNewTextField (effects w)
        = count isDestroyTextField (effects w)
  | Loaded =>
      (∃ chipSet t,
         mdcChipSet (this w) = Some chipSet
         ∧ listeners (effects w) = wiring (chipSetRoot chipSet) t)
      ∧ count isNewChipSet (effects w)
        = S (count isDestroyChipSet (effects w))
      ∧ count isNewTextField (effects w)
        = count isDestroyTextField (effects w)
          + match mdcTextField (this w) with Some _ => 1 | None => 0 end
  | Updating =>
      is_Some (mdcChipSet (this w))
      ∧ listeners (effects w) = []
      ∧ count isNewChipSet (effects w) = count isDestroyChipSet (effects w)
      ∧ count isNewTextField (effects w)
        = count isDestroyTextField (effects w)
          + match mdcTextField (this w) with Some _ => 1 | None => 0 end
  | Unloaded =>
      listeners (effects w) = []
      ∧ count isNewChipSet (effects w) = count isDestroyChipSet (effects w)
      ∧ count isNewTextField (effects w)
        = count isDestroyTextField (effects w)
  end.

(** *** Looking into what is rendered *)

(** The elements of a tree, in document order. *)
Fixpoint elements (n : VNode) : list VNode :=
  match n with
  | h _ _ children => n :: concat (map elements children)
  | array_ items => concat (map elements items)
  | string_ _ | value_ _ | null => []
  end.

Definition tagOf (n : VNode) : option string :=
  match n with
  | h tag _ _ => Some tag
  | _ => None
  end.

Fixpoint lookupProp (name : string) (props : list (string * PropValue))
    : option PropValue :=
  match props with
  | [] => None
  | (k, v) :: rest => if String.eqb k name then Some v else lookupProp name rest
  end.

(** A property of an element that is a string. *)
Definition stringProp (name : string) (n : VNode) : option string :=
  match n with
  | h _ props _ =>
      match lookupProp name props with
      | Some (PString s) => Some s
      | _ => None
      end
  | _ => None
  end.

Definition hasTag (tag : string) (n : VNode) : bool :=
  match tagOf n with
  | Some t => String.eqb t tag
  | None => false
  end.

Definition hasClass (class : string) (n : VNode) : bool :=
  match stringProp "class" n with
  | Some c => String.eqb c class
  | None => false
  end.

(** The elements that are the icon before the text of a chip, the icon
    after it, and a chip shown as selected. *)
Definition isLeadingIcon (n : VNode) : bool :=
  hasClass "mdc-chip__icon mdc-chip__icon--leading" n.
Definition isTrailingIcon (n : VNode) : bool :=
  hasClass "mdc-chip__icon mdc-chip__icon--trailing" n.
Definition isSelectedChip (n : VNode) : bool :=
  hasClass "mdc-chip mdc-chip--selected" n.

(** [querySelector('input')] on the tree of the shadow root, where the
    elements are numbered in document order. *)
Definition querySelector_input (root : VNode) : option Element :=
  fst <$> list_find (λ n, hasTag "input" n = true) (elements root).

End Observed.


(** ** A sample runtime and sample chips *)

(** Strings, whole numbers and booleans. *)
Inductive SampleValue :=
| SString (s : string)
| SNumber (n : Z)
| SBoolean (b : bool).

Definition digit (n : Z) : string :=
  match n with
  | 0 => "0" | 1 => "1" | 2 => "2" | 3 => "3" | 4 => "4"
  | 5 => "5" | 6 => "6" | 7 => "7" | 8 => "8" | _ => "9"
  end%Z.

Fixpoint digits (fuel : nat) (n : Z) : string :=
  match fuel with
  | O => EmptyString
  | S fuel' =>
      if (n <? 10)%Z then digit n
      else digits fuel' (n / 10)%Z ++ digit (n mod 10)%Z
  end.

(** The decimal numeral of a whole number of up to thirty digits. *)
Definition numeral (n : Z) : string :=
  if (n <? 0)%Z then "-" ++ digits 30 (- n)%Z else digits 30 n.

Definition sampleTemplateString (v : option SampleValue) : string :=
  match v with
  | Some (SString s) => s
  | Some (SNumber n) => numeral n
  | Some (SBoolean true) => "true"
  | Some (SBoolean false) => "false"
  | None => "undefined"
  end.

Definition sampleToBoolean (v : option SampleValue) : bool :=
  match v with
  | Some (SString EmptyString) => false
  | Some (SString _) => true
  | Some (SNumber n) => negb (Z.eqb n 0)
  | Some (SBoolean b) => b
  | None => false
  end.

Fixpoint dropSpaces (s : string) : string :=
  match s with
  | String " " rest => dropSpaces rest
  | _ => s
  end.

Definition reverse_string (s : string) : string :=
  string_of_list_ascii (rev (list_ascii_of_string s)).

(** Trimming, of spaces only. *)
Definition sampleTrim (s : string) : string :=
  reverse_string (dropSpaces (reverse_string (dropSpaces s))).

Global Instance sampleRuntime : Runtime := {|
  JsValue := SampleValue;
  templateString := sampleTemplateString;
  toBoolean := sampleToBoolean;
  ofBoolean := SBoolean;
  trim := sampleTrim;
|}.

Definition apple : Chip :=
  {[ "id" := SNumber 1; "text" := SString "Apple";
     "removable" := SBoolean true ]}.
Definition pear : Chip :=
  {[ "id" := SNumber 2; "text" := SString "Pear";
     "icon" := SString "pear"; "selected" := SBoolean true ]}.
Definition plum : Chip :=
  {[ "id" := SString "plum"; "text" := SString "Plum" ]}.

(** A chip whose id is the string of the number that is the id of
    [apple]. *)
Definition appleAgain : Chip :=
  {[ "id" := SString "1"; "text" := SString "Apple again" ]}.

(** A chip set of the given type with the given chips, as created
    otherwise. *)
Definition sampleWorld (t : option ChipSetType) (chips : list Chip) : World :=
  set_type t (set_value chips created).

(** An input chip set with three chips. *)
Definition fruits : World := sampleWorld (Some input) [apple; pear; plum].

(** Calls of the handlers, none of them an assignment by the consumer. *)
Definition sampleHandling : list Call :=
  [call_handleTextFieldFocus;
   call_handleTextInput {| target_value := " pl " |};
   call_handleRemove {| chipId := "1" |};
   call_handleInputBlur;
   call_runTimer].

(** A lifecycle in order: an input chip set is loaded, becomes a filter
    chip set and is rendered again. *)
Definition sampleLifecycle : list Call :=
  [assign_type (Some input);
   assign_value [apple; pear];
   call_componentDidLoad 0 1;
   call_handleTextFieldFocus;
   assign_type (Some filter);
   call_componentWillUpdate;
   call_componentDidUpdate 0 None].

End ChipSet.


(** * Properties *)

(** Membership in a list that is written out. *)
Ltac in_list :=
  solve [ cbv [EditorMenuTypes.values toggleActions headingActions
               containerActions listActions requiredMarks requiredNodes
               headerLevels];
          repeat first [apply list_elem_of_here | apply list_elem_of_further] ].

(** Case analysis on membership in a list that is written out. *)
Ltac cases_of Hin :=
  repeat (apply elem_of_cons in Hin as [Hin|Hin]; [simplify_eq|]);
  [..|by apply elem_of_nil in Hin].

Section Properties.

Context {MarkType NodeType : Type}.

Implicit Types (σ : Store MarkType NodeType) (s : Schema MarkType NodeType).
Implicit Types (c : Command MarkType NodeType) (this : MenuCommandFactory).
Implicit Types (mark markName nodeType listType : string).
Implicit Types (url : option string) (e : Exception).
Implicit Types (mapping : gmap string (CommandFunction MarkType NodeType)).
Implicit Types (commandFunc : CommandFunction MarkType NodeType).

(** ** Running the command constructors *)

Lemma bind_run {A B} (m : M MarkType NodeType A)
    (k : A → M MarkType NodeType B) σ :
  (m ≫= k) σ =
  match m σ with
  | (Normal a, σ') => k a σ'
  | (Throw e, σ') => (Throw e, σ')
  end.
Proof. reflexivity. Qed.

Lemma createToggleMarkCommand_run schema markName url σ :
  createToggleMarkCommand schema markName url σ =
  match schemas σ !! schema with
  | None =>
      (Throw (TypeError
         "Cannot read properties of undefined (reading 'marks')"), σ)
  | Some s =>
      match marks s !! markName with
      | None =>
          (Throw (Error (quoted "Mark " markName " not found in schema")), σ)
      | Some markType =>
          match (if String.eqb markName EditorMenuTypes.Link
                 then truthyString url else None) with
          | Some href =>
              (Normal (toggleMark markType (Some (length (objects σ)))),
               allocated σ {[ "href" := VString href ]})
          | None => (Normal (toggleMark markType None), σ)
          end
      end
  end.
Proof.
  unfold createToggleMarkCommand, readSchema. rewrite bind_run.
  destruct (schemas σ !! schema) as [s|]; [|done].
  destruct (marks s !! markName) as [markType|]; [|done].
  by destruct (if String.eqb _ _ then _ else _).
Qed.

Lemma createSetNodeTypeCommand_run schema nodeType level σ :
  createSetNodeTypeCommand schema nodeType level σ =
  match schemas σ !! schema with
  | None =>
      (Throw (TypeError
         "Cannot read properties of undefined (reading 'nodes')"), σ)
  | Some s =>
      match nodes s !! nodeType with
      | None =>
          (Throw (Error (quoted "Node type " nodeType " not found in schema")),
           σ)
      | Some type =>
          match (if String.eqb nodeType "heading"
                 then truthyNumber level else None) with
          | Some l =>
              (Normal (setBlockType type (Some (length (objects σ)))),
               allocated σ {[ "level" := VNumber l ]})
          | None => (Normal (setBlockType type None), σ)
          end
      end
  end.
Proof.
  unfold createSetNodeTypeCommand, readSchema. rewrite bind_run.
  destruct (schemas σ !! schema) as [s|]; [|done].
  destruct (nodes s !! nodeType) as [type|]; [|done].
  by destruct (if String.eqb _ _ then _ else _).
Qed.

Lemma createWrapInCommand_run schema nodeType σ :
  createWrapInCommand schema nodeType σ =
  match schemas σ !! schema with
  | None =>
      (Throw (TypeError
         "Cannot read properties of undefined (reading 'nodes')"), σ)
  | Some s =>
      match nodes s !! nodeType with
      | None =>
          (Throw (Error (quoted "Node type " nodeType " not found in schema")),
           σ)
      | Some type => (Normal (wrapIn type), σ)
      end
  end.
Proof.
  unfold createWrapInCommand, readSchema. rewrite bind_run.
  destruct (schemas σ !! schema) as [s|]; [|done].
  by destruct (nodes s !! nodeType).
Qed.

Lemma createListCommand_run schema listType σ :
  createListCommand schema listType σ =
  match schemas σ !! schema with
  | None =>
      (Throw (TypeError
         "Cannot read properties of undefined (reading 'nodes')"), σ)
  | Some s =>
      match nodes s !! listType with
      | None =>
          (Throw (Error (quoted "List type " listType " not found in schema")),
           σ)
      | Some type => (Normal (wrapInList type), σ)
      end
  end.
Proof.
  unfold createListCommand, readSchema. rewrite bind_run.
  destruct (schemas σ !! schema) as [s|]; [|done].
  by destruct (nodes s !! listType).
Qed.

(** ** The three exits of [getCommand] *)

Lemma includes_true (array : list string) (x : string) :
  includes array x = true ↔ x ∈ array.
Proof.
  unfold includes. rewrite existsb_exists. split.
  - intros (y & Hy & Heq). apply String.eqb_eq in Heq as ->.
    by apply list_elem_of_In.
  - intros Hx. exists x. split; [by apply list_elem_of_In|].
    apply String.eqb_refl.
Qed.

Lemma includes_false (array : list string) (x : string) :
  includes array x = false ↔ x ∉ array.
Proof.
  rewrite <- includes_true. by destruct (includes array x).
Qed.

Lemma getCommandWith_unsupported menuTypes mapping this mark url σ :
  mark ∉ menuTypes →
  getCommandWith menuTypes mapping this mark url σ =
  (Throw (Error (quoted "The Menu Type " mark " is not supported")), σ).
Proof.
  intros Hmark. apply (proj2 (includes_false _ _)) in Hmark.
  unfold getCommandWith. by rewrite Hmark.
Qed.

Lemma getCommandWith_unimplemented menuTypes mapping this mark url σ :
  mark ∈ menuTypes → mapping !! mark = None →
  getCommandWith menuTypes mapping this mark url σ =
  (Throw (Error (quoted "The Mark " mark " is not supported")), σ).
Proof.
  intros Hmark Hnone. apply (proj2 (includes_true _ _)) in Hmark.
  unfold getCommandWith.
  by rewrite Hmark, Hnone.
Qed.

Lemma getCommandWith_dispatch menuTypes mapping this mark url σ commandFunc :
  mark ∈ menuTypes → mapping !! mark = Some commandFunc →
  getCommandWith menuTypes mapping this mark url σ =
  commandFunc (schema this) mark url σ.
Proof.
  intros Hmark Hsome. apply (proj2 (includes_true _ _)) in Hmark.
  unfold getCommandWith.
  by rewrite Hmark, Hsome.
Qed.

(** ** The dispatch table, by strategy *)

Lemma commandMapping_cases mark commandFunc :
  commandMapping !! mark = Some commandFunc →
  (mark ∈ toggleActions ∧ commandFunc = createToggleMarkCommand)
  ∨ (∃ level, (mark, level) ∈ headingActions
       ∧ commandFunc = λ schema _ _,
           createSetNodeTypeCommand schema "heading" (Some level))
  ∨ (mark ∈ containerActions
       ∧ commandFunc = λ schema mark _, createWrapInCommand schema mark)
  ∨ (mark ∈ listActions
       ∧ commandFunc = λ schema mark _, createListCommand schema mark).
Proof.
  intros Hin%elem_of_list_to_map_2.
  repeat (apply elem_of_cons in Hin as [[= -> ->]|Hin]);
    [| | | | | | | | | | by apply elem_of_nil in Hin].
  all: unfold toggleActions, headingActions, containerActions, listActions.
  all: first [ left; split; [in_list|reflexivity]
             | right; left; eexists; split; [in_list|reflexivity]
             | right; right; left; split; [in_list|reflexivity]
             | right; right; right; split; [in_list|reflexivity] ].
Qed.

Lemma commandMapping_toggle mark :
  mark ∈ toggleActions →
  @commandMapping MarkType NodeType !! mark = Some createToggleMarkCommand.
Proof.
  unfold toggleActions. intros Hin.
  repeat (apply elem_of_cons in Hin as [->|Hin]); try reflexivity.
  by apply elem_of_nil in Hin.
Qed.

Lemma commandMapping_heading mark level :
  (mark, level) ∈ headingActions →
  @commandMapping MarkType NodeType !! mark =
  Some (λ schema _ _, createSetNodeTypeCommand schema "heading" (Some level)).
Proof.
  unfold headingActions. intros Hin.
  repeat (apply elem_of_cons in Hin as [[= -> ->]|Hin]); try reflexivity.
  by apply elem_of_nil in Hin.
Qed.

Lemma commandMapping_container mark :
  mark ∈ containerActions →
  @commandMapping MarkType NodeType !! mark =
  Some (λ schema mark _, createWrapInCommand schema mark).
Proof.
  unfold containerActions. intros Hin.
  repeat (apply elem_of_cons in Hin as [->|Hin]); try reflexivity.
  by apply elem_of_nil in Hin.
Qed.

Lemma commandMapping_list mark :
  mark ∈ listActions →
  @commandMapping MarkType NodeType !! mark =
  Some (λ schema mark _, createListCommand schema mark).
Proof.
  unfold listActions. intros Hin.
  repeat (apply elem_of_cons in Hin as [->|Hin]); try reflexivity.
  by apply elem_of_nil in Hin.
Qed.

(** Every member of the enumeration falls under one of the strategies. *)
Lemma values_cases mark :
  mark ∈ EditorMenuTypes.values →
  mark ∈ toggleActions ∨ (∃ level, (mark, level) ∈ headingActions)
  ∨ mark ∈ containerActions ∨ mark ∈ listActions.
Proof.
  unfold EditorMenuTypes.values, toggleActions, headingActions,
    containerActions, listActions.
  intros Hin.
  repeat (apply elem_of_cons in Hin as [->|Hin]);
    [| | | | | | | | | by apply elem_of_nil in Hin].
  all: first [ left; by in_list
             | right; left; eexists; by in_list
             | right; right; left; by in_list
             | right; right; right; by in_list ].
Qed.

(** ** [getCommand] on the members of the enumeration *)

Lemma getCommand_toggle this mark url σ :
  mark ∈ EditorMenuTypes.values → mark ∈ toggleActions →
  getCommand this mark url σ =
  createToggleMarkCommand (schema this) mark url σ.
Proof.
  intros Hmark Htoggle. unfold getCommand.
  by rewrite (getCommandWith_dispatch _ _ _ _ _ _ _ Hmark
                (commandMapping_toggle _ Htoggle)).
Qed.

Lemma getCommand_heading this mark level url σ :
  mark ∈ EditorMenuTypes.values → (mark, level) ∈ headingActions →
  getCommand this mark url σ =
  createSetNodeTypeCommand (schema this) "heading" (Some level) σ.
Proof.
  intros Hmark Hheading. unfold getCommand.
  by rewrite (getCommandWith_dispatch _ _ _ _ _ _ _ Hmark
                (commandMapping_heading _ _ Hheading)).
Qed.

Lemma getCommand_container this mark url σ :
  mark ∈ EditorMenuTypes.values → mark ∈ containerActions →
  getCommand this mark url σ = createWrapInCommand (schema this) mark σ.
Proof.
  intros Hmark Hcontainer. unfold getCommand.
  by rewrite (getCommandWith_dispatch _ _ _ _ _ _ _ Hmark
                (commandMapping_container _ Hcontainer)).
Qed.

Lemma getCommand_list this mark url σ :
  mark ∈ EditorMenuTypes.values → mark ∈ listActions →
  getCommand this mark url σ = createListCommand (schema this) mark σ.
Proof.
  intros Hmark Hlist. unfold getCommand.
  by rewrite (getCommandWith_dispatch _ _ _ _ _ _ _ Hmark
                (commandMapping_list _ Hlist)).
Qed.

(** The heading levels are not zero, so each is bound. *)
Lemma headingActions_level mark level :
  (mark, level) ∈ headingActions → truthyNumber (Some level) = Some level.
Proof. unfold headingActions. intros Hin. by cases_of Hin. Qed.

(** ** Resolution against a fully populated capability table *)

(** C1. On a schema whose tables hold every primitive the dispatch table
    refers to, [getCommand] returns a command, and does not throw, for every
    action identifier of the enumeration and whatever the URL argument. *)
Theorem getCommand_resolves_every_action this mark url σ s :
  schemas σ !! schema this = Some s →
  fullyPopulated s →
  mark ∈ EditorMenuTypes.values →
  ∃ c σ', getCommand this mark url σ = (Normal c, σ').
Proof.
  intros Hs [Hmarks Hnodes] Hmark.
  destruct (values_cases _ Hmark)
    as [Htoggle|[[level Hheading]|[Hcontainer|Hlist]]].
  - rewrite getCommand_toggle, createToggleMarkCommand_run, Hs by done.
    destruct (Hmarks mark Htoggle) as [markType ->].
    destruct (if String.eqb _ _ then _ else _); eauto.
  - rewrite (getCommand_heading _ _ level), createSetNodeTypeCommand_run, Hs
      by done.
    destruct (Hnodes "heading") as [type ->]; [in_list|].
    destruct (if String.eqb _ _ then _ else _); eauto.
  - rewrite getCommand_container, createWrapInCommand_run, Hs by done.
    destruct (Hnodes mark) as [type ->]; [|eauto].
    unfold containerActions in Hcontainer. cases_of Hcontainer. in_list.
  - rewrite getCommand_list, createListCommand_run, Hs by done.
    destruct (Hnodes mark) as [type ->]; [|eauto].
    unfold listActions in Hlist. cases_of Hlist; in_list.
Qed.

(** ** The Link action and its URL *)

Lemma Link_is_action : EditorMenuTypes.Link ∈ EditorMenuTypes.values.
Proof. unfold EditorMenuTypes.values. in_list. Qed.

Lemma getCommand_Link this url σ s markType :
  schemas σ !! schema this = Some s →
  marks s !! "link" = Some markType →
  getCommand this EditorMenuTypes.Link url σ =
  match truthyString url with
  | Some href =>
      (Normal (toggleMark markType (Some (length (objects σ)))),
       allocated σ {[ "href" := VString href ]})
  | None => (Normal (toggleMark markType None), σ)
  end.
Proof.
  intros Hs Hlink.
  rewrite getCommand_toggle, createToggleMarkCommand_run, Hs
    by (apply Link_is_action || (unfold toggleActions; in_list)).
  unfold EditorMenuTypes.Link in *. by rewrite Hlink.
Qed.

Lemma attributes_allocated σ (o : gmap string Value) c :
  attrsOf c = Some (length (objects σ)) →
  attributes (allocated σ o) c = Some (Some o).
Proof.
  unfold attributes. intros ->. simpl. by rewrite list_lookup_middle.
Qed.

(** C2, as the code has it.  On a schema that holds the link mark,
    [getCommand] for the Link action with a URL that is not the empty string
    returns a toggle of the link mark whose attribute object is exactly
    [{ href: url }]; without a URL argument it returns the toggle of the link
    mark with no attribute object, and allocates nothing. *)
Theorem getCommand_link_href this σ s markType :
  schemas σ !! schema this = Some s →
  marks s !! "link" = Some markType →
  (∀ u, u ≠ EmptyString →
     ∃ c σ',
       getCommand this EditorMenuTypes.Link (Some u) σ = (Normal c, σ')
       ∧ bare c = toggleMark markType None
       ∧ attributes σ' c = Some (Some {[ "href" := VString u ]})
       ∧ attribute σ' c "href" = Some (VString u))
  ∧ getCommand this EditorMenuTypes.Link None σ =
    (Normal (toggleMark markType None), σ)
  ∧ attributes σ (toggleMark markType None) = None.
Proof.
  intros Hs Hlink. split; [|split; [|done]].
  - intros u Hu. rewrite (getCommand_Link _ _ _ _ _ Hs Hlink).
    destruct u as [|a u]; [done|]. simpl.
    eexists _, _. split; [done|]. split; [done|]. split.
    + by apply attributes_allocated.
    + unfold attribute. simpl. by rewrite list_lookup_middle.
  - by rewrite (getCommand_Link _ _ _ _ _ Hs Hlink).
Qed.

(** C10. For the Link action the empty string is the same as no URL: on a
    schema that holds the link mark, [getCommand] with the URL [""] returns
    the plain toggle of the link mark, which carries no href, exactly as
    without a URL argument. *)
Theorem getCommand_link_empty_url this σ s markType :
  schemas σ !! schema this = Some s →
  marks s !! "link" = Some markType →
  getCommand this EditorMenuTypes.Link (Some EmptyString) σ =
  (Normal (toggleMark markType None), σ)
  ∧ getCommand this EditorMenuTypes.Link (Some EmptyString) σ =
    getCommand this EditorMenuTypes.Link None σ
  ∧ attribute σ (toggleMark markType None) "href" = None.
Proof.
  intros Hs Hlink. by rewrite !(getCommand_Link _ _ _ _ _ Hs Hlink).
Qed.

(** ** The heading actions and their levels *)

(** C4. On a schema that holds the heading node, [getCommand] for
    HeaderLevelN, N = 1, 2, 3, returns a set-block-type command on the
    heading node whose attribute object is exactly [{ level: N }]. *)
Theorem getCommand_heading_level this mark level url σ s type :
  schemas σ !! schema this = Some s →
  nodes s !! "heading" = Some type →
  (mark, level) ∈ headerLevels →
  ∃ c σ',
    getCommand this mark url σ = (Normal c, σ')
    ∧ bare c = setBlockType type None
    ∧ attributes σ' c = Some (Some {[ "level" := VNumber level ]})
    ∧ attribute σ' c "level" = Some (VNumber level).
Proof.
  intros Hs Hheading Hin.
  assert (mark ∈ EditorMenuTypes.values) as Hmark.
  { unfold headerLevels in Hin. cases_of Hin;
      unfold EditorMenuTypes.values; in_list. }
  change headerLevels with headingActions in Hin.
  rewrite (getCommand_heading _ _ level), createSetNodeTypeCommand_run,
    Hs, Hheading by done.
  rewrite (headingActions_level _ _ Hin). simpl.
  eexists _, _. split; [done|]. split; [done|]. split.
  - by apply attributes_allocated.
  - unfold attribute. simpl. by rewrite list_lookup_middle.
Qed.

(** ** The faults *)

Lemma faultKind_unsupported mark :
  faultKind (Error (quoted "The Menu Type " mark " is not supported")) =
  Some UnsupportedAction.
Proof. reflexivity. Qed.

Lemma faultKind_unimplemented mark :
  faultKind (Error (quoted "The Mark " mark " is not supported")) =
  Some MissingDispatchStrategy.
Proof. reflexivity. Qed.

Lemma faultKind_mark_not_found markName :
  faultKind (Error (quoted "Mark " markName " not found in schema")) =
  Some CapabilityUnavailable.
Proof. reflexivity. Qed.

Lemma faultKind_node_not_found nodeType :
  faultKind (Error (quoted "Node type " nodeType " not found in schema")) =
  Some CapabilityUnavailable.
Proof. reflexivity. Qed.

Lemma faultKind_list_not_found listType :
  faultKind (Error (quoted "List type " listType " not found in schema")) =
  Some CapabilityUnavailable.
Proof. reflexivity. Qed.

(** C5. On a schema whose marks table lacks the strong mark, [getCommand]
    for the Strong action throws the capability-unavailable fault, not the
    unsupported-action fault, and leaves the store as it was. *)
Theorem getCommand_strong_unavailable this url σ s :
  schemas σ !! schema this = Some s →
  marks s !! "strong" = None →
  ∃ e,
    getCommand this EditorMenuTypes.Strong url σ = (Throw e, σ)
    ∧ e = Error (quoted "Mark " "strong" " not found in schema")
    ∧ faultKind e = Some CapabilityUnavailable
    ∧ faultKind e ≠ Some UnsupportedAction.
Proof.
  intros Hs Hstrong. eexists. split; [|split; [reflexivity|done]].
  rewrite getCommand_toggle, createToggleMarkCommand_run, Hs.
  - unfold EditorMenuTypes.Strong. by rewrite Hstrong.
  - unfold EditorMenuTypes.values. in_list.
  - unfold toggleActions. in_list.
Qed.

(** C6. For an identifier that is not a value of the enumeration,
    [getCommand] throws the unsupported-action fault and no other, leaving
    the store as it was; it does so whatever the dispatch table holds and
    whatever the store holds, the capability table included. *)
Theorem getCommand_rejects_unknown_action this mark url σ :
  mark ∉ EditorMenuTypes.values →
  ∃ e,
    getCommand this mark url σ = (Throw e, σ)
    ∧ faultKind e = Some UnsupportedAction
    ∧ ∀ mapping this' σ',
        getCommandWith EditorMenuTypes.values mapping this' mark url σ' =
        (Throw e, σ').
Proof.
  intros Hmark. eexists. split; [|split].
  - by apply getCommandWith_unsupported.
  - apply faultKind_unsupported.
  - intros mapping this' σ'. by apply getCommandWith_unsupported.
Qed.

(** C3. The three fault kinds are told apart by the exception thrown.
    Whichever entries of the dispatch table are present, on a store that
    holds the schema an exception thrown by [getCommand] classifies as
    unsupported action exactly when the identifier is outside the
    enumeration, as missing dispatch strategy exactly when the identifier is
    in the enumeration and has no entry, and as capability unavailable
    exactly when it has an entry, whose primitive the schema then lacks. *)
Theorem fault_kinds_distinguishable mapping this mark url σ s e σ' :
  mapping ⊆ commandMapping →
  schemas σ !! schema this = Some s →
  getCommandWith EditorMenuTypes.values mapping this mark url σ =
  (Throw e, σ') →
  (faultKind e = Some UnsupportedAction ∧ mark ∉ EditorMenuTypes.values)
  ∨ (faultKind e = Some MissingDispatchStrategy
       ∧ mark ∈ EditorMenuTypes.values ∧ mapping !! mark = None)
  ∨ (faultKind e = Some CapabilityUnavailable
       ∧ mark ∈ EditorMenuTypes.values ∧ is_Some (mapping !! mark)
       ∧ ∃ p, requiredPrimitive mark = Some p ∧ ¬ available s p).
Proof.
  intros Hsub Hs Hrun.
  destruct (decide (mark ∈ EditorMenuTypes.values)) as [Hmark|Hmark].
  2: { rewrite getCommandWith_unsupported in Hrun by done.
       injection Hrun as <- _. left. by rewrite faultKind_unsupported. }
  right. destruct (mapping !! mark) as [commandFunc|] eqn:Hentry.
  2: { rewrite getCommandWith_unimplemented in Hrun by done.
       injection Hrun as <- _. left. by rewrite faultKind_unimplemented. }
  right. rewrite (getCommandWith_dispatch _ _ _ _ _ _ _ Hmark Hentry) in Hrun.
  apply (lookup_weaken _ _ _ _ Hentry) in Hsub.
  destruct (commandMapping_cases _ _ Hsub)
    as [[Hin ->]|[(level & Hin & ->)|[[Hin ->]|[Hin ->]]]].
  - rewrite createToggleMarkCommand_run, Hs in Hrun.
    destruct (marks s !! mark) eqn:Hprimitive.
    { by destruct (if String.eqb _ _ then _ else _). }
    injection Hrun as <- _. rewrite faultKind_mark_not_found.
    do 3 (split; [done|]). exists (MarkPrimitive mark). split.
    + unfold toggleActions in Hin. by cases_of Hin.
    + simpl. rewrite Hprimitive. by intros [? ?].
  - rewrite createSetNodeTypeCommand_run, Hs in Hrun.
    destruct (nodes s !! "heading") eqn:Hprimitive.
    { by destruct (if String.eqb _ _ then _ else _). }
    injection Hrun as <- _. rewrite faultKind_node_not_found.
    do 3 (split; [done|]). exists (NodePrimitive "heading"). split.
    + unfold headingActions in Hin. by cases_of Hin.
    + simpl. rewrite Hprimitive. by intros [? ?].
  - rewrite createWrapInCommand_run, Hs in Hrun.
    destruct (nodes s !! mark) eqn:Hprimitive; [done|].
    injection Hrun as <- _. rewrite faultKind_node_not_found.
    do 3 (split; [done|]). exists (NodePrimitive mark). split.
    + unfold containerActions in Hin. by cases_of Hin.
    + simpl. rewrite Hprimitive. by intros [? ?].
  - rewrite createListCommand_run, Hs in Hrun.
    destruct (nodes s !! mark) eqn:Hprimitive; [done|].
    injection Hrun as <- _. rewrite faultKind_list_not_found.
    do 3 (split; [done|]). exists (NodePrimitive mark). split.
    + unfold listActions in Hin. by cases_of Hin.
    + simpl. rewrite Hprimitive. by intros [? ?].
Qed.

(** ** What a call does to the store *)

(** A call of [getCommand] reads the store only through the schema of the
    factory: on all stores that hold the same schema there, it throws the
    same exception and allocates nothing, or returns the same command without
    parameters and allocates nothing, or allocates the same attribute object
    and returns the same command over it. *)
Lemma getCommand_effect this mark url σ :
  (∃ e, ∀ σ2, schemas σ2 !! schema this = schemas σ !! schema this →
      getCommand this mark url σ2 = (Throw e, σ2))
  ∨ (∃ c, attrsOf c = None
      ∧ ∀ σ2, schemas σ2 !! schema this = schemas σ !! schema this →
          getCommand this mark url σ2 = (Normal c, σ2))
  ∨ (∃ c o, (∀ r, attrsOf (withAttrs c r) = Some r)
      ∧ ∀ σ2, schemas σ2 !! schema this = schemas σ !! schema this →
          getCommand this mark url σ2 =
          (Normal (withAttrs c (length (objects σ2))), allocated σ2 o)).
Proof.
  destruct (decide (mark ∈ EditorMenuTypes.values)) as [Hmark|Hmark].
  2: { left. eexists. intros σ2 _. by apply getCommandWith_unsupported. }
  destruct (values_cases _ Hmark)
    as [Htoggle|[[level Hheading]|[Hcontainer|Hlist]]].
  - destruct (schemas σ !! schema this) as [s|] eqn:Hs;
      [destruct (marks s !! mark) as [markType|] eqn:Hprimitive;
       [destruct (if String.eqb mark EditorMenuTypes.Link
                  then truthyString url else None) as [href|] eqn:Hurl|]|].
    + right; right. exists (toggleMark markType None), {[ "href" := VString href ]}.
      split; [done|]. intros σ2 Hagree.
      rewrite getCommand_toggle, createToggleMarkCommand_run, Hagree,
        Hprimitive, Hurl by done.
      done.
    + right; left. exists (toggleMark markType None).
      split; [done|]. intros σ2 Hagree.
      rewrite getCommand_toggle, createToggleMarkCommand_run, Hagree,
        Hprimitive, Hurl by done.
      done.
    + left. eexists. intros σ2 Hagree.
      rewrite getCommand_toggle, createToggleMarkCommand_run, Hagree,
        Hprimitive by done.
      done.
    + left. eexists. intros σ2 Hagree.
      rewrite getCommand_toggle, createToggleMarkCommand_run, Hagree by done.
      done.
  - pose proof (headingActions_level _ _ Hheading) as Hlevel.
    destruct (schemas σ !! schema this) as [s|] eqn:Hs;
      [destruct (nodes s !! "heading") as [type|] eqn:Hprimitive|].
    + right; right. exists (setBlockType type None), {[ "level" := VNumber level ]}.
      split; [done|]. intros σ2 Hagree.
      rewrite (getCommand_heading _ _ level), createSetNodeTypeCommand_run,
        Hagree, Hprimitive, Hlevel by done.
      done.
    + left. eexists. intros σ2 Hagree.
      rewrite (getCommand_heading _ _ level), createSetNodeTypeCommand_run,
        Hagree, Hprimitive by done.
      done.
    + left. eexists. intros σ2 Hagree.
      rewrite (getCommand_heading _ _ level), createSetNodeTypeCommand_run,
        Hagree by done.
      done.
  - destruct (schemas σ !! schema this) as [s|] eqn:Hs;
      [destruct (nodes s !! mark) as [type|] eqn:Hprimitive|].
    + right; left. exists (wrapIn type). split; [done|]. intros σ2 Hagree.
      rewrite getCommand_container, createWrapInCommand_run, Hagree,
        Hprimitive by done.
      done.
    + left. eexists. intros σ2 Hagree.
      rewrite getCommand_container, createWrapInCommand_run, Hagree,
        Hprimitive by done.
      done.
    + left. eexists. intros σ2 Hagree.
      rewrite getCommand_container, createWrapInCommand_run, Hagree by done.
      done.
  - destruct (schemas σ !! schema this) as [s|] eqn:Hs;
      [destruct (nodes s !! mark) as [type|] eqn:Hprimitive|].
    + right; left. exists (wrapInList type). split; [done|]. intros σ2 Hagree.
      rewrite getCommand_list, createListCommand_run, Hagree,
        Hprimitive by done.
      done.
    + left. eexists. intros σ2 Hagree.
      rewrite getCommand_list, createListCommand_run, Hagree,
        Hprimitive by done.
      done.
    + left. eexists. intros σ2 Hagree.
      rewrite getCommand_list, createListCommand_run, Hagree by done.
      done.
Qed.

Lemma lookup_allocated_twice {A} (l : list A) (o : A) :
  ((l ++ [o]) ++ [o])%list !! length l
  = ((l ++ [o]) ++ [o])%list !! length (l ++ [o])%list.
Proof.
  rewrite (list_lookup_middle (l ++ [o])%list [] o (length (l ++ [o])%list))
    by done.
  rewrite lookup_app_l by (rewrite length_app; simpl; lia).
  by rewrite (list_lookup_middle l [] o (length l)).
Qed.

Lemma bare_withAttrs c r : bare (withAttrs c r) = bare c.
Proof. by destruct c. Qed.

(** C9. [getCommand] is deterministic and free of side effects.  When it is
    called twice with the same action identifier and URL on the same factory,
    the second call in the store the first one left: no call changes a schema
    object, and no call changes or removes an attribute object that exists,
    a call only adds the object of the command it returns; the two calls end
    the same way, with the same exception or with commands of the same
    strategy on the same handle with equal parameters; and the two commands
    hold no attribute object in common. *)
Theorem getCommand_pure this mark url σ r1 σ1 r2 σ2 :
  getCommand this mark url σ = (r1, σ1) →
  getCommand this mark url σ1 = (r2, σ2) →
  schemas σ1 = schemas σ ∧ schemas σ2 = schemas σ
  ∧ objects σ `prefix_of` objects σ1 ∧ objects σ1 `prefix_of` objects σ2
  ∧ sameCompletion σ2 r1 r2
  ∧ ∀ c1 c2, r1 = Normal c1 → r2 = Normal c2 → independent c1 c2.
Proof.
  intros Hfirst Hsecond.
  destruct (getCommand_effect this mark url σ)
    as [[e Hrun]|[(c & Hplain & Hrun)|(c & o & Hattrs & Hrun)]].
  - rewrite Hrun in Hfirst by done. injection Hfirst as <- <-.
    rewrite Hrun in Hsecond by done. injection Hsecond as <- <-.
    by repeat split.
  - rewrite Hrun in Hfirst by done. injection Hfirst as <- <-.
    rewrite Hrun in Hsecond by done. injection Hsecond as <- <-.
    repeat split; try done.
    intros c1 c2 [= <-] _ r. by rewrite Hplain.
  - rewrite Hrun in Hfirst by done. injection Hfirst as <- <-.
    rewrite Hrun in Hsecond by done. injection Hsecond as <- <-.
    split; [done|]. split; [done|].
    split; [by apply prefix_app_r|]. split; [by apply prefix_app_r|].
    split; [split|].
    + by rewrite !bare_withAttrs.
    + unfold attributes. rewrite !Hattrs. simpl. f_equal.
      apply lookup_allocated_twice.
    + intros c1 c2 [= <-] [= <-] r. rewrite !Hattrs. intros [= <-] [= Heq].
      simpl in Heq. rewrite length_app in Heq. simpl in Heq. lia.
Qed.

(** ** The shortcut bindings *)

(** [buildKeymap] resolves the shortcut actions in order and binds the
    commands to the shortcut keys. *)
Lemma buildKeymap_resolveAll this σ :
  buildKeymap this σ =
  match resolveAll this shortcutActions σ with
  | (Normal cs, σ') => (Normal (list_to_map (zip shortcuts.*1 cs)), σ')
  | (Throw e, σ') => (Throw e, σ')
  end.
Proof.
  unfold buildKeymap, shortcutActions. simpl. rewrite !bind_run.
  destruct (getCommand this _ None σ) as [[modB|e] σ0]; [|done].
  rewrite !bind_run.
  destruct (getCommand this _ None σ0) as [[modI|e] σ0']; [|done].
  rewrite !bind_run.
  destruct (getCommand this _ None σ0') as [[modShift1|e] σ1]; [|done].
  rewrite !bind_run.
  destruct (getCommand this _ None σ1) as [[modShift2|e] σ2]; [|done].
  rewrite !bind_run.
  by destruct (getCommand this _ None σ2) as [[modShift3|e] σ3].
Qed.

(** On the stores that hold the same schema for the factory, a call throws
    the same exception everywhere or returns everywhere, and leaves the
    schemas as they are. *)
Lemma getCommand_throws_or_returns this mark url σ :
  (∃ e, ∀ σ2, schemas σ2 !! schema this = schemas σ !! schema this →
      getCommand this mark url σ2 = (Throw e, σ2))
  ∨ (∀ σ2, schemas σ2 !! schema this = schemas σ !! schema this →
      ∃ c σ2', getCommand this mark url σ2 = (Normal c, σ2')
               ∧ schemas σ2' = schemas σ2).
Proof.
  destruct (getCommand_effect this mark url σ)
    as [[e Hrun]|[(c & _ & Hrun)|(c & o & _ & Hrun)]].
  - left. eauto.
  - right. intros σ2 Hagree. rewrite Hrun by done. eauto.
  - right. intros σ2 Hagree. rewrite Hrun by done. eauto.
Qed.

Lemma fails_functional this σ mark e e' :
  fails this σ mark e → fails this σ mark e' → e = e'.
Proof. intros [σ1 H1] [σ2 H2]. congruence. Qed.

(** Resolving a list of actions returns a command for each when none of them
    fails, and otherwise throws what the first action that fails throws. *)
Lemma resolveAll_first_failure this actions σ :
  ∀ σ2, schemas σ2 !! schema this = schemas σ !! schema this →
  (∃ cs σ', resolveAll this actions σ2 = (Normal cs, σ')
            ∧ ∀ a e, a ∈ actions → ¬ fails this σ a e)
  ∨ (∃ before first after e σ',
       actions = (before ++ first :: after)%list
       ∧ (∀ b e', b ∈ before → ¬ fails this σ b e')
       ∧ fails this σ first e
       ∧ resolveAll this actions σ2 = (Throw e, σ')).
Proof.
  induction actions as [|a rest IH]; intros σ2 Hagree.
  { left. exists [], σ2. split; [done|]. by intros a e ?%elem_of_nil. }
  destruct (getCommand_throws_or_returns this a None σ) as [[e Hrun]|Hrun].
  - right. exists [], a, rest, e, σ2. split; [done|].
    split; [by intros b e' ?%elem_of_nil|]. split.
    + exists σ. by apply Hrun.
    + simpl. by rewrite bind_run, Hrun.
  - destruct (Hrun σ2 Hagree) as (c & σ2' & Hc & Hschemas).
    assert (∀ e, ¬ fails this σ a e) as Hok.
    { intros e [σ' Hthrow]. destruct (Hrun σ eq_refl) as (? & ? & Hreturn & _).
      congruence. }
    destruct (IH σ2') as
      [(cs & σ' & Hrest & Hnone)
      |(before & first & after & e & σ' & -> & Hbefore & Hfirst & Hrest)].
    { by rewrite Hschemas. }
    + left. exists (c :: cs), σ'. split.
      * simpl. by rewrite bind_run, Hc, bind_run, Hrest.
      * intros b e [->|Hb]%elem_of_cons; [apply Hok|by apply Hnone].
    + right. exists (a :: before), first, after, e, σ'. split; [done|].
      split; [|split; [done|]].
      * intros b e' [->|Hb]%elem_of_cons; [apply Hok|by apply Hbefore].
      * simpl. by rewrite bind_run, Hc, bind_run, Hrest.
Qed.

(** What a shortcut action throws only depends, in kind, on whether the
    factory has a schema: without one every property read is a type error,
    with one every fault is a capability that is not available. *)
Lemma shortcut_faultKind this σ mark e :
  mark ∈ shortcutActions → fails this σ mark e →
  faultKind e =
  match schemas σ !! schema this with
  | Some _ => Some CapabilityUnavailable
  | None => None
  end.
Proof.
  intros Hin [σ' Hrun]. revert Hrun.
  assert (mark ∈ EditorMenuTypes.values) as Hmark.
  { unfold shortcutActions in Hin. simpl in Hin.
    cases_of Hin; unfold EditorMenuTypes.values; in_list. }
  destruct (values_cases _ Hmark)
    as [Htoggle|[[level Hheading]|[Hcontainer|Hlist]]].
  - rewrite getCommand_toggle, createToggleMarkCommand_run by done.
    destruct (schemas σ !! schema this) as [s|]; [|by intros [= <- _]].
    destruct (marks s !! mark); [|by intros [= <- _]].
    by destruct (if String.eqb _ _ then _ else _).
  - rewrite (getCommand_heading _ _ level), createSetNodeTypeCommand_run
      by done.
    destruct (schemas σ !! schema this) as [s|]; [|by intros [= <- _]].
    destruct (nodes s !! "heading"); [|by intros [= <- _]].
    by destruct (if String.eqb _ _ then _ else _).
  - rewrite getCommand_container, createWrapInCommand_run by done.
    destruct (schemas σ !! schema this) as [s|]; [|by intros [= <- _]].
    by destruct (nodes s !! mark); [|intros [= <- _]].
  - rewrite getCommand_list, createListCommand_run by done.
    destruct (schemas σ !! schema this) as [s|]; [|by intros [= <- _]].
    by destruct (nodes s !! mark); [|intros [= <- _]].
Qed.

(** C8. When one of the five shortcut actions cannot be resolved,
    [buildKeymap] returns no bindings at all: it throws, and what it throws
    is what [getCommand] throws for the first of the shortcut actions, in the
    order of the bindings, that cannot be resolved.  That is the exception of
    the given action when the given action is that first one, and so whenever
    it is the only shortcut action that cannot be resolved; it need not be
    otherwise. *)
Theorem buildKeymap_fails_as_the_first_failure this σ mark e :
  mark ∈ shortcutActions →
  fails this σ mark e →
  ∃ e' σ' before first after,
    buildKeymap this σ = (Throw e', σ')
    ∧ shortcutActions = (before ++ first :: after)%list
    ∧ (∀ b e'', b ∈ before → ¬ fails this σ b e'')
    ∧ fails this σ first e'
    ∧ (first = mark → e' = e)
    ∧ ((∀ b e'', b ∈ shortcutActions → fails this σ b e'' → b = mark) →
       e' = e).
Proof.
  intros Hin Hfails. rewrite buildKeymap_resolveAll.
  destruct (resolveAll_first_failure this shortcutActions σ σ eq_refl) as
    [(cs & σ' & _ & Hnone)
    |(before & first & after & e' & σ' & Heq & Hbefore & Hfirst & ->)].
  { by destruct (Hnone mark e). }
  assert (first = mark → e' = e) as Hsame.
  { intros ->. by eapply fails_functional. }
  exists e', σ', before, first, after. do 5 (split; [done|]).
  intros Honly. apply Hsame, (Honly first e'); [|done].
  rewrite Heq. apply elem_of_app. right. apply list_elem_of_here.
Qed.

Lemma getCommand_plain_toggle this mark σ s markType :
  mark ∈ EditorMenuTypes.values → mark ∈ toggleActions →
  schemas σ !! schema this = Some s →
  marks s !! mark = Some markType →
  getCommand this mark None σ = (Normal (toggleMark markType None), σ).
Proof.
  intros Hmark Htoggle Hs Hprimitive.
  rewrite getCommand_toggle, createToggleMarkCommand_run, Hs, Hprimitive
    by done.
  by destruct (String.eqb mark EditorMenuTypes.Link).
Qed.

Lemma getCommand_header this mark level url σ s type :
  (mark, level) ∈ headerLevels →
  schemas σ !! schema this = Some s →
  nodes s !! "heading" = Some type →
  getCommand this mark url σ =
  (Normal (setBlockType type (Some (length (objects σ)))),
   allocated σ {[ "level" := VNumber level ]}).
Proof.
  intros Hin Hs Hheading.
  assert (mark ∈ EditorMenuTypes.values) as Hmark.
  { unfold headerLevels in Hin. cases_of Hin;
      unfold EditorMenuTypes.values; in_list. }
  change headerLevels with headingActions in Hin.
  rewrite (getCommand_heading _ _ level), createSetNodeTypeCommand_run,
    Hs, Hheading by done.
  by rewrite (headingActions_level _ _ Hin).
Qed.

Lemma lookup_allocated_thrice {A} (l : list A) (o1 o2 o3 : A) :
  (((l ++ [o1]) ++ [o2]) ++ [o3])%list !! length l = Some o1
  ∧ (((l ++ [o1]) ++ [o2]) ++ [o3])%list !! length (l ++ [o1])%list = Some o2
  ∧ (((l ++ [o1]) ++ [o2]) ++ [o3])%list
      !! length ((l ++ [o1]) ++ [o2])%list = Some o3.
Proof.
  split; [|split].
  - rewrite <- !(assoc_L (++)). by apply list_lookup_middle.
  - rewrite <- (assoc_L (++) (l ++ [o1])%list). by apply list_lookup_middle.
  - by apply list_lookup_middle.
Qed.

(** C7. On a schema that holds every primitive the dispatch table refers to,
    [buildKeymap] returns a mapping of exactly five entries, under the keys
    Mod-B, Mod-I, Mod-Shift-1, Mod-Shift-2 and Mod-Shift-3; they are bound to
    the commands [getCommand] returns, called in that order, for Strong,
    Italic and the heading levels 1, 2 and 3, and the three heading commands
    carry the levels 1, 2 and 3 in the store [buildKeymap] leaves. *)
Theorem buildKeymap_bindings this σ s :
  schemas σ !! schema this = Some s →
  fullyPopulated s →
  ∃ km σ' modB modI modShift1 modShift2 modShift3 σ1 σ2,
    buildKeymap this σ = (Normal km, σ')
    ∧ size km = 5
    ∧ dom km = list_to_set shortcuts.*1
    ∧ getCommand this EditorMenuTypes.Strong None σ = (Normal modB, σ)
    ∧ getCommand this EditorMenuTypes.Italic None σ = (Normal modI, σ)
    ∧ getCommand this EditorMenuTypes.HeaderLevel1 None σ =
      (Normal modShift1, σ1)
    ∧ getCommand this EditorMenuTypes.HeaderLevel2 None σ1 =
      (Normal modShift2, σ2)
    ∧ getCommand this EditorMenuTypes.HeaderLevel3 None σ2 =
      (Normal modShift3, σ')
    ∧ km !! "Mod-B" = Some modB
    ∧ km !! "Mod-I" = Some modI
    ∧ km !! "Mod-Shift-1" = Some modShift1
    ∧ km !! "Mod-Shift-2" = Some modShift2
    ∧ km !! "Mod-Shift-3" = Some modShift3
    ∧ attribute σ' modShift1 "level" = Some (VNumber 1)
    ∧ attribute σ' modShift2 "level" = Some (VNumber 2)
    ∧ attribute σ' modShift3 "level" = Some (VNumber 3).
Proof.
  intros Hs [Hmarks Hnodes].
  destruct (Hmarks "strong") as [strongType Hstrong]; [in_list|].
  destruct (Hmarks "em") as [emType Hem]; [in_list|].
  destruct (Hnodes "heading") as [headingType Hheading]; [in_list|].
  set (n := length (objects σ)).
  set (σ1 := allocated σ {[ "level" := VNumber 1 ]}).
  set (σ2 := allocated σ1 {[ "level" := VNumber 2 ]}).
  set (σ3 := allocated σ2 {[ "level" := VNumber 3 ]}).
  assert (getCommand this EditorMenuTypes.Strong None σ =
          (Normal (toggleMark strongType None), σ)) as HmodB.
  { apply (getCommand_plain_toggle _ _ _ s); done || in_list. }
  assert (getCommand this EditorMenuTypes.Italic None σ =
          (Normal (toggleMark emType None), σ)) as HmodI.
  { apply (getCommand_plain_toggle _ _ _ s); done || in_list. }
  assert (getCommand this EditorMenuTypes.HeaderLevel1 None σ =
          (Normal (setBlockType headingType (Some n)), σ1)) as HmodShift1.
  { apply (getCommand_header _ _ _ _ _ s); done || in_list. }
  assert (getCommand this EditorMenuTypes.HeaderLevel2 None σ1 =
          (Normal (setBlockType headingType (Some (length (objects σ1)))), σ2))
    as HmodShift2.
  { apply (getCommand_header _ _ _ _ _ s); done || in_list. }
  assert (getCommand this EditorMenuTypes.HeaderLevel3 None σ2 =
          (Normal (setBlockType headingType (Some (length (objects σ2)))), σ3))
    as HmodShift3.
  { apply (getCommand_header _ _ _ _ _ s); done || in_list. }
  eexists _, σ3, _, _, _, _, _, σ1, σ2.
  split.
  { unfold buildKeymap.
    by rewrite bind_run, HmodB, bind_run, HmodI, bind_run, HmodShift1,
      bind_run, HmodShift2, bind_run, HmodShift3. }
  split.
  { rewrite map_size_list_to_map; [done|].
    apply (bool_decide_unpack _). by vm_compute. }
  split; [by rewrite dom_list_to_map_L|].
  do 5 (split; [done|]). do 5 (split; [reflexivity|]).
  destruct (lookup_allocated_thrice (objects σ)
    {[ "level" := VNumber 1 ]} {[ "level" := VNumber 2 ]}
    {[ "level" := VNumber 3 ]}) as (Hfirst & Hsecond & Hthird).
  unfold attribute. subst n σ1 σ2 σ3.
  cbn [attrsOf mbind option_bind objects allocated].
  by rewrite Hfirst, Hsecond, Hthird.
Qed.

End Properties.

(** * The properties at the sample stores *)

Lemma storeOf_schema (s : Schema string string) :
  schemas (storeOf s) !! schema factory = Some s.
Proof. apply lookup_singleton_eq. Qed.

Lemma fullSchema_fullyPopulated : fullyPopulated fullSchema.
Proof.
  split; intros name Hin.
  - unfold requiredMarks in Hin. cases_of Hin; by eexists.
  - unfold requiredNodes in Hin. cases_of Hin; by eexists.
Qed.

(** The blockquote action resolves on the full schema. *)
Lemma getCommand_resolves_every_action_witness :
  fullyPopulated fullSchema
  ∧ ∃ c σ',
      getCommand factory EditorMenuTypes.Blockquote None (storeOf fullSchema) =
      (Normal c, σ').
Proof.
  split; [apply fullSchema_fullyPopulated|].
  apply (getCommand_resolves_every_action factory EditorMenuTypes.Blockquote
           None (storeOf fullSchema) fullSchema).
  - apply storeOf_schema.
  - apply fullSchema_fullyPopulated.
  - in_list.
Defined.

(** A link with a URL, and a link without one, on the full schema. *)
Lemma getCommand_link_href_witness :
  marks fullSchema !! "link" = Some "<a>"
  ∧ (∀ u, u ≠ EmptyString →
       ∃ c σ',
         getCommand factory EditorMenuTypes.Link (Some u) (storeOf fullSchema)
         = (Normal c, σ')
         ∧ bare c = toggleMark "<a>" None
         ∧ attributes σ' c = Some (Some {[ "href" := VString u ]})
         ∧ attribute σ' c "href" = Some (VString u))
  ∧ getCommand factory EditorMenuTypes.Link None (storeOf fullSchema) =
    (Normal (toggleMark "<a>" None), storeOf fullSchema)
  ∧ attributes (storeOf fullSchema) (toggleMark "<a>" None) = None.
Proof.
  split; [reflexivity|].
  apply (getCommand_link_href factory (storeOf fullSchema) fullSchema "<a>").
  - apply storeOf_schema.
  - reflexivity.
Defined.

(** With the empty string for a URL the command of the Link action does not
    carry that string as its href: it carries no href. *)
Lemma getCommand_link_href_empty_url :
  ¬ ∃ c σ',
      getCommand factory EditorMenuTypes.Link (Some EmptyString)
        (storeOf fullSchema) = (Normal c, σ')
      ∧ attribute σ' c "href" = Some (VString EmptyString).
Proof.
  intros (c & σ' & Hrun & Hhref).
  vm_compute in Hrun. injection Hrun as <- <-. discriminate Hhref.
Qed.

(** The three faults, each at a sample input. *)
Lemma fault_kinds_distinguishable_witness :
  (faultKind (Error (quoted "Mark " "strong" " not found in schema")) =
     Some UnsupportedAction
   ∧ "strong" ∉ EditorMenuTypes.values)
  ∨ (faultKind (Error (quoted "Mark " "strong" " not found in schema")) =
       Some MissingDispatchStrategy
     ∧ "strong" ∈ EditorMenuTypes.values
     ∧ @commandMapping string string !! "strong" = None)
  ∨ (faultKind (Error (quoted "Mark " "strong" " not found in schema")) =
       Some CapabilityUnavailable
     ∧ "strong" ∈ EditorMenuTypes.values
     ∧ is_Some (@commandMapping string string !! "strong")
     ∧ ∃ p, requiredPrimitive "strong" = Some p
            ∧ ¬ available schemaWithoutStrong p).
Proof.
  apply (fault_kinds_distinguishable commandMapping factory "strong" None (storeOf schemaWithoutStrong)
           schemaWithoutStrong _ (storeOf schemaWithoutStrong)).
  - reflexivity.
  - apply storeOf_schema.
  - vm_compute. reflexivity.
Defined.

(** An entry taken out of the dispatch table is a missing dispatch
    strategy. *)
Lemma missing_dispatch_strategy_at_strong :
  ∃ e,
    getCommandWith EditorMenuTypes.values (delete "strong" commandMapping)
      factory "strong" None (storeOf fullSchema) =
    (Throw e, storeOf fullSchema)
    ∧ faultKind e = Some MissingDispatchStrategy.
Proof. eexists. split; [by vm_compute|reflexivity]. Qed.

(** Heading level 2 on the full schema. *)
Lemma getCommand_heading_level_witness :
  nodes fullSchema !! "heading" = Some "<h>"
  ∧ (EditorMenuTypes.HeaderLevel2, 2%Z) ∈ headerLevels
  ∧ ∃ c σ',
      getCommand factory EditorMenuTypes.HeaderLevel2 None (storeOf fullSchema)
      = (Normal c, σ')
      ∧ bare c = setBlockType "<h>" None
      ∧ attributes σ' c = Some (Some {[ "level" := VNumber 2 ]})
      ∧ attribute σ' c "level" = Some (VNumber 2).
Proof.
  split; [reflexivity|]. split; [in_list|].
  apply (getCommand_heading_level factory EditorMenuTypes.HeaderLevel2 2%Z
           None (storeOf fullSchema) fullSchema "<h>").
  - apply storeOf_schema.
  - reflexivity.
  - in_list.
Defined.

(** Bold on a schema without the strong mark. *)
Lemma getCommand_strong_unavailable_witness :
  marks schemaWithoutStrong !! "strong" = None
  ∧ ∃ e,
      getCommand factory EditorMenuTypes.Strong None
        (storeOf schemaWithoutStrong) = (Throw e, storeOf schemaWithoutStrong)
      ∧ e = Error (quoted "Mark " "strong" " not found in schema")
      ∧ faultKind e = Some CapabilityUnavailable
      ∧ faultKind e ≠ Some UnsupportedAction.
Proof.
  split; [reflexivity|].
  apply (getCommand_strong_unavailable factory None
           (storeOf schemaWithoutStrong) schemaWithoutStrong).
  - apply storeOf_schema.
  - reflexivity.
Defined.

(** An identifier outside the enumeration. *)
Lemma getCommand_rejects_unknown_action_witness :
  ("strikethrough" ∉ EditorMenuTypes.values)
  ∧ ∃ e,
      getCommand factory "strikethrough" None (storeOf fullSchema) =
      (Throw e, storeOf fullSchema)
      ∧ faultKind e = Some UnsupportedAction
      ∧ ∀ (mapping : gmap string (CommandFunction string string)) this' σ',
          getCommandWith EditorMenuTypes.values mapping this'
            "strikethrough" None σ' = (Throw e, σ').
Proof.
  assert ("strikethrough" ∉ EditorMenuTypes.values) as Hout.
  { apply includes_false. reflexivity. }
  split; [exact Hout|].
  apply (getCommand_rejects_unknown_action factory "strikethrough" None
           (storeOf fullSchema) Hout).
Defined.

(** The shortcuts on the full schema. *)
Lemma buildKeymap_bindings_witness :
  fullyPopulated fullSchema
  ∧ ∃ km σ', buildKeymap factory (storeOf fullSchema) = (Normal km, σ')
             ∧ size km = 5.
Proof.
  split; [apply fullSchema_fullyPopulated|].
  destruct (buildKeymap_bindings factory (storeOf fullSchema) fullSchema
              (storeOf_schema fullSchema) fullSchema_fullyPopulated)
    as (km & σ' & _ & _ & _ & _ & _ & _ & _ & Hrun & Hsize & _).
  by exists km, σ'.
Defined.

(** Italic on a schema without bold and without italic: the shortcuts fail
    on bold, the first of the two. *)
Lemma buildKeymap_fails_as_the_first_failure_witness :
  EditorMenuTypes.Italic ∈ shortcutActions
  ∧ fails factory (storeOf schemaWithoutStrongAndEm) EditorMenuTypes.Italic
      (Error (quoted "Mark " "em" " not found in schema"))
  ∧ ∃ e' σ' before first after,
      buildKeymap factory (storeOf schemaWithoutStrongAndEm) = (Throw e', σ')
      ∧ shortcutActions = (before ++ first :: after)%list
      ∧ (∀ b e'', b ∈ before →
           ¬ fails factory (storeOf schemaWithoutStrongAndEm) b e'')
      ∧ fails factory (storeOf schemaWithoutStrongAndEm) first e'
      ∧ (first = EditorMenuTypes.Italic →
         e' = Error (quoted "Mark " "em" " not found in schema"))
      ∧ ((∀ b e'', b ∈ shortcutActions →
            fails factory (storeOf schemaWithoutStrongAndEm) b e'' →
            b = EditorMenuTypes.Italic) →
         e' = Error (quoted "Mark " "em" " not found in schema")).
Proof.
  assert (EditorMenuTypes.Italic ∈ shortcutActions) as Hin.
  { unfold shortcutActions. simpl. in_list. }
  assert (fails factory (storeOf schemaWithoutStrongAndEm)
            EditorMenuTypes.Italic
            (Error (quoted "Mark " "em" " not found in schema"))) as Hfails.
  { exists (storeOf schemaWithoutStrongAndEm). vm_compute. reflexivity. }
  split; [exact Hin|]. split; [exact Hfails|].
  apply (buildKeymap_fails_as_the_first_failure factory
           (storeOf schemaWithoutStrongAndEm) EditorMenuTypes.Italic
           _ Hin Hfails).
Defined.

(** What the shortcuts throw there is the fault of bold, not of italic. *)
Lemma buildKeymap_throws_the_first_fault :
  buildKeymap factory (storeOf schemaWithoutStrongAndEm) =
  (Throw (Error (quoted "Mark " "strong" " not found in schema")),
   storeOf schemaWithoutStrongAndEm).
Proof. by vm_compute. Qed.

(** On a schema without bold and without italic, the italic action is a
    shortcut action that cannot be resolved, and [buildKeymap] does not fail
    with the fault [getCommand] signals for it. *)
Lemma buildKeymap_not_the_fault_of_italic :
  EditorMenuTypes.Italic ∈ shortcutActions
  ∧ fails factory (storeOf schemaWithoutStrongAndEm) EditorMenuTypes.Italic
      (Error (quoted "Mark " "em" " not found in schema"))
  ∧ ¬ ∃ σ',
        buildKeymap factory (storeOf schemaWithoutStrongAndEm) =
        (Throw (Error (quoted "Mark " "em" " not found in schema")), σ').
Proof.
  split; [unfold shortcutActions; simpl; in_list|]. split.
  - exists (storeOf schemaWithoutStrongAndEm). vm_compute. reflexivity.
  - intros [σ' Hrun]. rewrite buildKeymap_throws_the_first_fault in Hrun.
    vm_compute in Hrun. discriminate Hrun.
Qed.

(** Two calls for a link with a URL. *)
Lemma getCommand_pure_witness :
  let σ := storeOf fullSchema in
  let o : gmap string Value := {[ "href" := VString "https://lime.tech" ]} in
  let σ1 := allocated σ o in
  let σ2 := allocated σ1 o in
  let c1 := toggleMark "<a>" (Some 0%nat) in
  let c2 := toggleMark "<a>" (Some 1%nat) in
  getCommand factory EditorMenuTypes.Link (Some "https://lime.tech") σ =
  (Normal c1, σ1)
  ∧ getCommand factory EditorMenuTypes.Link (Some "https://lime.tech") σ1 =
    (Normal c2, σ2)
  ∧ schemas σ1 = schemas σ ∧ schemas σ2 = schemas σ
  ∧ objects σ `prefix_of` objects σ1 ∧ objects σ1 `prefix_of` objects σ2
  ∧ sameCompletion σ2 (Normal c1) (Normal c2)
  ∧ ∀ c1' c2', Normal c1 = Normal c1' → Normal c2 = Normal c2' →
               independent c1' c2'.
Proof.
  intros σ o σ1 σ2 c1 c2.
  assert (getCommand factory EditorMenuTypes.Link (Some "https://lime.tech") σ
          = (Normal c1, σ1)) as Hfirst.
  { vm_compute. reflexivity. }
  assert (getCommand factory EditorMenuTypes.Link (Some "https://lime.tech") σ1
          = (Normal c2, σ2)) as Hsecond.
  { vm_compute. reflexivity. }
  split; [exact Hfirst|]. split; [exact Hsecond|].
  apply (getCommand_pure factory EditorMenuTypes.Link
           (Some "https://lime.tech") σ (Normal c1) σ1 (Normal c2) σ2
           Hfirst Hsecond).
Defined.

(** A link with the empty string for a URL, on the full schema. *)
Lemma getCommand_link_empty_url_witness :
  marks fullSchema !! "link" = Some "<a>"
  ∧ getCommand factory EditorMenuTypes.Link (Some EmptyString)
      (storeOf fullSchema) =
    (Normal (toggleMark "<a>" None), storeOf fullSchema)
  ∧ getCommand factory EditorMenuTypes.Link (Some EmptyString)
      (storeOf fullSchema) =
    getCommand factory EditorMenuTypes.Link None (storeOf fullSchema)
  ∧ attribute (storeOf fullSchema) (toggleMark "<a>" None) "href" = None.
Proof.
  split; [reflexivity|].
  apply (getCommand_link_empty_url factory (storeOf fullSchema) fullSchema
           "<a>").
  - apply storeOf_schema.
  - reflexivity.
Defined.


(** * Further properties of the command factory *)

Section MoreOfTheFactory.

Context {MarkType NodeType : Type}.

Implicit Types (σ : Store MarkType NodeType) (s : Schema MarkType NodeType).
Implicit Types (c : Command MarkType NodeType) (this : MenuCommandFactory).
Implicit Types (mark markName nodeType listType : string).
Implicit Types (url : option string) (e : Exception).

(** X1. Only the Link action looks at the URL: for every other identifier,
    in the enumeration or not, [getCommand] with a URL does exactly what it
    does without one, in every store. *)
Theorem getCommand_ignores_url this mark url σ :
  mark ≠ EditorMenuTypes.Link →
  getCommand this mark url σ = getCommand this mark None σ.
Proof.
  intros Hlink.
  destruct (decide (mark ∈ EditorMenuTypes.values)) as [Hmark|Hmark].
  2: { unfold getCommand. by rewrite !getCommandWith_unsupported. }
  destruct (values_cases _ Hmark)
    as [Htoggle|[[level Hheading]|[Hcontainer|Hlist]]].
  - rewrite !getCommand_toggle, !createToggleMarkCommand_run by done.
    apply String.eqb_neq in Hlink. by rewrite Hlink.
  - by rewrite !(getCommand_heading _ _ level).
  - by rewrite !getCommand_container.
  - by rewrite !getCommand_list.
Qed.

(** X2. On a store that holds the schema, [getCommand] returns a command
    exactly for the identifiers of the enumeration whose own primitive the
    schema holds: the mark of the same name for a text decoration, the node
    [heading] for every heading level, the node of the same name for a
    container or a list.  What else the schema holds or lacks does not
    matter. *)
Theorem getCommand_resolves_iff this mark url σ s :
  schemas σ !! schema this = Some s →
  (∃ c σ', getCommand this mark url σ = (Normal c, σ'))
  ↔ mark ∈ EditorMenuTypes.values
    ∧ ∃ p, requiredPrimitive mark = Some p ∧ available s p.
Proof.
  intros Hs.
  destruct (decide (mark ∈ EditorMenuTypes.values)) as [Hmark|Hmark].
  2: { unfold getCommand. rewrite getCommandWith_unsupported by done.
       split; [by intros (? & ? & [=])|by intros [? _]]. }
  destruct (values_cases _ Hmark)
    as [Htoggle|[[level Hheading]|[Hcontainer|Hlist]]].
  - rewrite getCommand_toggle, createToggleMarkCommand_run, Hs by done.
    assert (requiredPrimitive mark = Some (MarkPrimitive mark)) as Hp.
    { unfold toggleActions in Htoggle. by cases_of Htoggle. }
    rewrite Hp. destruct (marks s !! mark) as [markType|] eqn:Hprimitive.
    + split; [|destruct (if String.eqb _ _ then _ else _); eauto].
      intros _. split; [done|]. eexists. split; [done|]. simpl.
      by rewrite Hprimitive.
    + split; [by intros (? & ? & [=])|].
      intros (_ & p & [= <-] & Havailable). simpl in Havailable.
      rewrite Hprimitive in Havailable. by destruct Havailable.
  - rewrite (getCommand_heading _ _ level), createSetNodeTypeCommand_run, Hs
      by done.
    assert (requiredPrimitive mark = Some (NodePrimitive "heading")) as Hp.
    { unfold headingActions in Hheading. by cases_of Hheading. }
    rewrite Hp. destruct (nodes s !! "heading") as [type|] eqn:Hprimitive.
    + split; [|destruct (if String.eqb _ _ then _ else _); eauto].
      intros _. split; [done|]. eexists. split; [done|]. simpl.
      by rewrite Hprimitive.
    + split; [by intros (? & ? & [=])|].
      intros (_ & p & [= <-] & Havailable). simpl in Havailable.
      rewrite Hprimitive in Havailable. by destruct Havailable.
  - rewrite getCommand_container, createWrapInCommand_run, Hs by done.
    assert (requiredPrimitive mark = Some (NodePrimitive mark)) as Hp.
    { unfold containerActions in Hcontainer. by cases_of Hcontainer. }
    rewrite Hp. destruct (nodes s !! mark) as [type|] eqn:Hprimitive.
    + split; [|eauto]. intros _. split; [done|]. eexists. split; [done|].
      simpl. by rewrite Hprimitive.
    + split; [by intros (? & ? & [=])|].
      intros (_ & p & [= <-] & Havailable). simpl in Havailable.
      rewrite Hprimitive in Havailable. by destruct Havailable.
  - rewrite getCommand_list, createListCommand_run, Hs by done.
    assert (requiredPrimitive mark = Some (NodePrimitive mark)) as Hp.
    { unfold listActions in Hlist. by cases_of Hlist. }
    rewrite Hp. destruct (nodes s !! mark) as [type|] eqn:Hprimitive.
    + split; [|eauto]. intros _. split; [done|]. eexists. split; [done|].
      simpl. by rewrite Hprimitive.
    + split; [by intros (? & ? & [=])|].
      intros (_ & p & [= <-] & Havailable). simpl in Havailable.
      rewrite Hprimitive in Havailable. by destruct Havailable.
Qed.

(** X3. The blockquote action wraps in the node the schema holds under
    [blockquote], and the two list actions wrap in a list of the node the
    schema holds under their own name; the command has no attribute object
    and nothing is allocated.  Without that node, the exception names it, as
    a node type for the blockquote and as a list type for the lists. *)
Theorem getCommand_wraps this url σ s :
  schemas σ !! schema this = Some s →
  getCommand this EditorMenuTypes.Blockquote url σ =
    match nodes s !! "blockquote" with
    | Some type => (Normal (wrapIn type), σ)
    | None =>
        (Throw (Error (quoted "Node type " "blockquote"
                         " not found in schema")), σ)
    end
  ∧ ∀ mark, mark ∈ [EditorMenuTypes.OrderedList; EditorMenuTypes.BulletList] →
      getCommand this mark url σ =
      match nodes s !! mark with
      | Some type => (Normal (wrapInList type), σ)
      | None =>
          (Throw (Error (quoted "List type " mark " not found in schema")), σ)
      end.
Proof.
  intros Hs. split.
  - by rewrite getCommand_container, createWrapInCommand_run, Hs by in_list.
  - intros mark Hin.
    assert (mark ∈ EditorMenuTypes.values ∧ mark ∈ listActions) as [? ?].
    { cases_of Hin; split; in_list. }
    by rewrite getCommand_list, createListCommand_run, Hs.
Qed.

(** X4. The three heading actions look up the one node [heading]: in a
    store, either all of them fail, with the same exception, or none does.
    The exception names the node, not the action. *)
Theorem heading_actions_fail_together this σ mark mark' level level' e :
  (mark, level) ∈ headerLevels →
  (mark', level') ∈ headerLevels →
  fails this σ mark e →
  fails this σ mark' e
  ∧ (is_Some (schemas σ !! schema this) →
     e = Error (quoted "Node type " "heading" " not found in schema")).
Proof.
  intros Hin Hin' [σ' Hrun].
  assert (mark ∈ EditorMenuTypes.values) as Hmark.
  { unfold headerLevels in Hin. cases_of Hin; in_list. }
  assert (mark' ∈ EditorMenuTypes.values) as Hmark'.
  { unfold headerLevels in Hin'. cases_of Hin'; in_list. }
  change headerLevels with headingActions in Hin, Hin'.
  rewrite (getCommand_heading _ _ level),
    createSetNodeTypeCommand_run in Hrun by done.
  unfold fails.
  rewrite (getCommand_heading _ _ level'), createSetNodeTypeCommand_run
    by done.
  destruct (schemas σ !! schema this) as [s|].
  - destruct (nodes s !! "heading").
    + rewrite (headingActions_level _ _ Hin) in Hrun. by simpl in Hrun.
    + injection Hrun as <- <-. eauto.
  - injection Hrun as <- <-. split; [eauto|]. by intros [? ?].
Qed.

(** X5. For a level that is a whole number, as the three heading levels
    are, or no level: [createSetNodeTypeCommand] binds the level only to the
    node type [heading] and only when it is there and is not zero.  On a
    schema that holds the node type, the command has an attribute object
    exactly then, and otherwise nothing is allocated.  Levels that are not
    whole numbers are outside this statement. *)
Theorem createSetNodeTypeCommand_binds_whole_level_iff
    (schema : SchemaRef) nodeType (level : option Z) σ s
    (type : NodeType) :
  schemas σ !! schema = Some s →
  nodes s !! nodeType = Some type →
  ∃ c σ',
    createSetNodeTypeCommand schema nodeType level σ = (Normal c, σ')
    ∧ bare c = setBlockType type None
    ∧ (is_Some (attrsOf c)
       ↔ nodeType = "heading" ∧ ∃ l, level = Some l ∧ l ≠ 0%Z)
    ∧ (attrsOf c = None → σ' = σ)
    ∧ ∀ l, level = Some l → is_Some (attrsOf c) →
        attribute σ' c "level" = Some (VNumber l).
Proof.
  intros Hs Hnode. rewrite createSetNodeTypeCommand_run, Hs, Hnode.
  destruct (String.eqb_spec nodeType "heading") as [->|Hother].
  - destruct level as [l|]; simpl.
    + destruct (Z.eqb_spec l 0) as [->|Hl].
      * eexists _, _. split; [done|]. split; [done|]. simpl.
        split; [|split; [done|by intros ? ? [? [=]]]].
        split; [by intros [? [=]]|]. by intros (_ & ? & [= <-] & ?).
      * eexists _, _. split; [done|]. split; [done|]. simpl.
        split; [|split; [done|]].
        -- split; [eauto|done].
        -- intros ? [= <-] _. unfold attribute. simpl.
           by rewrite list_lookup_middle.
    + eexists _, _. split; [done|]. split; [done|]. simpl.
      split; [|split; [done|by intros ? [=]]].
      split; [by intros [? [=]]|]. by intros (_ & ? & [=] & _).
  - eexists _, _. split; [done|]. split; [done|]. simpl.
    split; [|split; [done|by intros ? ? [? [=]]]].
    split; [by intros [? [=]]|]. by intros [? _].
Qed.

(** What [buildKeymap] does, read off the three primitives it needs. *)
Lemma buildKeymap_run this σ :
  buildKeymap this σ =
  match schemas σ !! schema this with
  | None =>
      (Throw (TypeError
         "Cannot read properties of undefined (reading 'marks')"), σ)
  | Some s =>
      match marks s !! "strong", marks s !! "em", nodes s !! "heading" with
      | None, _, _ =>
          (Throw (Error (quoted "Mark " "strong" " not found in schema")), σ)
      | Some _, None, _ =>
          (Throw (Error (quoted "Mark " "em" " not found in schema")), σ)
      | Some _, Some _, None =>
          (Throw (Error (quoted "Node type " "heading"
                           " not found in schema")), σ)
      | Some strongType, Some emType, Some headingType =>
          let n := length (objects σ) in
          (Normal (list_to_map [
             ("Mod-B", toggleMark strongType None);
             ("Mod-I", toggleMark emType None);
             ("Mod-Shift-1", setBlockType headingType (Some n));
             ("Mod-Shift-2", setBlockType headingType (Some (S n)));
             ("Mod-Shift-3", setBlockType headingType (Some (S (S n))))]),
           allocated
             (allocated (allocated σ {[ "level" := VNumber 1 ]})
                {[ "level" := VNumber 2 ]})
             {[ "level" := VNumber 3 ]})
      end
  end.
Proof.
  unfold buildKeymap. rewrite bind_run.
  rewrite getCommand_toggle, createToggleMarkCommand_run by in_list.
  destruct (schemas σ !! schema this) as [s|] eqn:Hs; [|done].
  unfold EditorMenuTypes.Strong at 1.
  destruct (marks s !! "strong") as [strongType|]; [|done].
  simpl. rewrite bind_run.
  rewrite getCommand_toggle, createToggleMarkCommand_run, Hs by in_list.
  unfold EditorMenuTypes.Italic at 1.
  destruct (marks s !! "em") as [emType|]; [|done].
  simpl. rewrite bind_run.
  rewrite (getCommand_heading _ _ 1%Z), createSetNodeTypeCommand_run, Hs
    by in_list.
  destruct (nodes s !! "heading") as [headingType|] eqn:Hheading; [|done].
  simpl. rewrite bind_run.
  rewrite (getCommand_heading _ _ 2%Z), createSetNodeTypeCommand_run
    by in_list.
  simpl. rewrite Hs, Hheading. simpl. rewrite bind_run.
  rewrite (getCommand_heading _ _ 3%Z), createSetNodeTypeCommand_run
    by in_list.
  simpl. rewrite Hs, Hheading. simpl.
  rewrite !length_app. simpl.
  replace (length (objects σ) + 1 + 1) with (S (S (length (objects σ))))
    by lia.
  by replace (length (objects σ) + 1) with (S (length (objects σ))) by lia.
Qed.

(** X6. On a store that holds the schema, [buildKeymap] returns bindings
    exactly when the schema holds the marks [strong] and [em] and the node
    [heading]; nothing else of the schema is needed. *)
Theorem buildKeymap_succeeds_iff this σ s :
  schemas σ !! schema this = Some s →
  (∃ km σ', buildKeymap this σ = (Normal km, σ'))
  ↔ is_Some (marks s !! "strong") ∧ is_Some (marks s !! "em")
    ∧ is_Some (nodes s !! "heading").
Proof.
  intros Hs. rewrite buildKeymap_run, Hs.
  destruct (marks s !! "strong"), (marks s !! "em"), (nodes s !! "heading");
    (split; [intros (? & ? & [=])|intros ([? ?] & [? ?] & [? ?])]); eauto;
    done.
Qed.

(** X7. [buildKeymap] is all or nothing: when it throws, the store is as it
    was before the call, with no attribute object left behind by the
    shortcuts resolved before the one that failed. *)
Theorem buildKeymap_throws_nothing_allocated this σ e σ' :
  buildKeymap this σ = (Throw e, σ') → σ' = σ.
Proof.
  rewrite buildKeymap_run.
  destruct (schemas σ !! schema this) as [s|]; [|by intros [= _ <-]].
  by destruct (marks s !! "strong"), (marks s !! "em"),
    (nodes s !! "heading"); intros [= _ <-].
Qed.

(** X8. The three heading bindings of a keymap hold three attribute objects
    of their own: no two bindings of the keymap share one, and each object
    is new, the store before the call having none at its place. *)
Theorem buildKeymap_bindings_independent this σ km σ' key key' c c' :
  buildKeymap this σ = (Normal km, σ') →
  km !! key = Some c → km !! key' = Some c' → key ≠ key' →
  independent c c'
  ∧ ∀ r, attrsOf c = Some r →
      objects σ !! r = None ∧ is_Some (objects σ' !! r).
Proof.
  rewrite buildKeymap_run.
  destruct (schemas σ !! schema this) as [s|]; [|done].
  destruct (marks s !! "strong") as [strongType|],
    (marks s !! "em") as [emType|],
    (nodes s !! "heading") as [headingType|]; try done.
  intros [= <- <-] Hc Hc' Hkeys.
  set (n := length (objects σ)) in *.
  set (l := [("Mod-B", toggleMark strongType None);
             ("Mod-I", toggleMark emType None);
             ("Mod-Shift-1", setBlockType headingType (Some n));
             ("Mod-Shift-2", setBlockType headingType (Some (S n)));
             ("Mod-Shift-3", setBlockType headingType (Some (S (S n))))]).
  apply (elem_of_list_to_map_2 l) in Hc, Hc'. subst l n.
  split.
  - cases_of Hc; cases_of Hc'; try done; intros r [= <-] [=]; lia.
  - cases_of Hc; intros r [= <-];
      (split; [apply lookup_ge_None_2; lia|]);
      apply lookup_lt_is_Some; cbn [objects allocated];
      rewrite !length_app; simpl; lia.
Qed.

(** X9. One call of [getCommand] and the store.  A call that throws leaves
    the store as it was.  A call that returns leaves the schemas and the
    attribute objects that exist as they were and adds at most one object;
    it adds one exactly when the command has an attribute object, and that
    is the object added. *)
Theorem getCommand_allocation this mark url σ r σ' :
  getCommand this mark url σ = (r, σ') →
  match r with
  | Throw _ => σ' = σ
  | Normal c =>
      schemas σ' = schemas σ
      ∧ match attrsOf c with
        | None => σ' = σ
        | Some ref =>
            ref = length (objects σ)
            ∧ ∃ o, σ' = allocated σ o ∧ objects σ' !! ref = Some o
        end
  end.
Proof.
  intros Hrun.
  destruct (getCommand_effect this mark url σ)
    as [[e Heffect]|[(c & Hplain & Heffect)|(c & o & Hattrs & Heffect)]];
    rewrite Heffect in Hrun by done; injection Hrun as <- <-.
  - done.
  - by rewrite Hplain.
  - rewrite Hattrs. split; [done|]. split; [done|]. exists o.
    split; [done|]. simpl. by apply list_lookup_middle.
Qed.

End MoreOfTheFactory.

(** * Properties of the chip set component *)

Module ChipSetProperties.

Import ChipSet.

Local Open Scope list_scope.

(** ** Finding and filtering in an array *)

Section Arrays.

Context {A : Type}.

Implicit Types (f : A → bool) (l : list A).

Lemma find_first f l x :
  List.find f l = Some x →
  ∃ l1 l2, l = (l1 ++ x :: l2)%list ∧ f x = true ∧ ∀ y, y ∈ l1 → f y = false.
Proof.
  induction l as [|a l IH]; [done|]. simpl.
  destruct (f a) eqn:Ha.
  - intros [= ->]. exists [], l. split; [done|]. split; [done|].
    by intros y ?%elem_of_nil.
  - intros (l1 & l2 & -> & Hx & Hl1)%IH. exists (a :: l1), l2.
    split; [done|]. split; [done|].
    by intros y [->|?]%elem_of_cons; [|apply Hl1].
Qed.

Lemma find_nothing f l :
  List.find f l = None ↔ ∀ y, y ∈ l → f y = false.
Proof.
  induction l as [|a l IH]; simpl.
  - split; [by intros _ y ?%elem_of_nil|done].
  - destruct (f a) eqn:Ha.
    + split; [done|]. intros Hall. rewrite Hall in Ha; [done|].
      apply list_elem_of_here.
    + rewrite IH. split.
      * by intros Hall y [->|?]%elem_of_cons; [|apply Hall].
      * intros Hall y Hy. apply Hall. by apply list_elem_of_further.
Qed.

Lemma find_is_first f l l1 x l2 :
  l = (l1 ++ x :: l2)%list → f x = true → (∀ y, y ∈ l1 → f y = false) →
  List.find f l = Some x.
Proof.
  intros -> Hx. induction l1 as [|a l1 IH]; simpl; intros Hl1.
  - by rewrite Hx.
  - rewrite (Hl1 a) by apply list_elem_of_here. apply IH.
    intros y Hy. apply Hl1. by apply list_elem_of_further.
Qed.

Lemma filter_is_sublist f l : List.filter f l `sublist_of` l.
Proof.
  induction l as [|a l IH]; simpl; [done|].
  destruct (f a); by constructor.
Qed.

Lemma elem_of_filtered f l x : x ∈ List.filter f l ↔ x ∈ l ∧ f x = true.
Proof. rewrite !list_elem_of_In. apply filter_In. Qed.

Lemma filter_keeps_all f l :
  (∀ y, y ∈ l → f y = true) → List.filter f l = l.
Proof.
  induction l as [|a l IH]; simpl; [done|]. intros Hall.
  rewrite (Hall a) by apply list_elem_of_here. f_equal. apply IH.
  intros y Hy. apply Hall. by apply list_elem_of_further.
Qed.

End Arrays.

Section Handlers.

Context `{Runtime}.

Implicit Types (w : World) (chip : Chip).

(** The chips whose id makes a string other than the given one. *)
Lemma others_of_distinct (chips before after : list Chip) chip :
  NoDup (map idString chips) →
  chips = (before ++ chip :: after)%list →
  List.filter (λ c, negb (String.eqb (idString c) (idString chip))) chips
  = (before ++ after)%list.
Proof.
  intros Hdistinct ->. rewrite List.filter_app. simpl.
  rewrite String.eqb_refl. simpl.
  rewrite map_app in Hdistinct. simpl in Hdistinct.
  apply NoDup_app in Hdistinct as (_ & Hbefore & Hafter).
  apply NoDup_cons in Hafter as [Hafter _].
  rewrite !filter_keeps_all; [done| |].
  - intros c Hc. apply negb_true_iff, String.eqb_neq. intros Heq.
    apply Hafter. rewrite <- Heq. by apply list_elem_of_fmap_2.
  - intros c Hc. apply negb_true_iff, String.eqb_neq. intros Heq.
    apply (Hbefore (idString c)); [by apply list_elem_of_fmap_2|].
    rewrite Heq. apply list_elem_of_here.
Qed.

(** X10. [handleRemove] emits one change event and changes nothing of the
    component, the chips it holds included.  The event carries the chips
    whose id makes a string other than the id of the event, all of them and
    in their order; when no chip has that id, it carries all the chips. *)
Theorem handleRemove_emits_the_others (event : MDCChipInteractionEvent) w :
  ∃ newValue,
    effects (handleRemove event w) = effects w ++ [change_emit (inr newValue)]
    ∧ this (handleRemove event w) = this w
    ∧ timers (handleRemove event w) = timers w
    ∧ newValue `sublist_of` value (this w)
    ∧ (∀ chip, chip ∈ newValue
         ↔ chip ∈ value (this w) ∧ idString chip ≠ chipId event)
    ∧ ((∀ chip, chip ∈ value (this w) → idString chip ≠ chipId event) →
       newValue = value (this w)).
Proof.
  eexists. split; [reflexivity|]. split; [done|]. split; [done|].
  split; [apply filter_is_sublist|]. split.
  - intros chip. rewrite elem_of_filtered, negb_true_iff.
    by rewrite String.eqb_neq.
  - intros Hnone. apply filter_keeps_all. intros chip Hchip.
    by apply negb_true_iff, String.eqb_neq, Hnone.
Qed.

(** X11. When the ids of the chips make different strings, [handleRemove]
    with the id of a chip emits the chips without that one chip. *)
Theorem handleRemove_removes_that_chip w (before after : list Chip) chip :
  NoDup (map idString (value (this w))) →
  value (this w) = (before ++ chip :: after)%list →
  effects (handleRemove {| chipId := idString chip |} w) =
  effects w ++ [change_emit (inr (before ++ after)%list)].
Proof.
  intros Hdistinct Hvalue. unfold handleRemove, does. simpl.
  by rewrite (others_of_distinct _ before after chip).
Qed.

(** X12. [handleInteraction] emits one interact event and changes nothing
    of the component.  The event carries the first chip whose id makes the
    string that is the id of the event, and [undefined] when there is no
    such chip. *)
Theorem handleInteraction_emits_the_first (event : MDCChipInteractionEvent) w :
  ∃ found,
    effects (handleInteraction event w) = effects w ++ [interact_emit found]
    ∧ this (handleInteraction event w) = this w
    ∧ match found with
      | Some chip =>
          ∃ before after,
            value (this w) = (before ++ chip :: after)%list
            ∧ idString chip = chipId event
            ∧ ∀ c, c ∈ before → idString c ≠ chipId event
      | None => ∀ c, c ∈ value (this w) → idString c ≠ chipId event
      end.
Proof.
  eexists. split; [reflexivity|]. split; [done|].
  destruct (List.find _ _) as [chip|] eqn:Hfind.
  - apply find_first in Hfind as (before & after & Hvalue & Hid & Hbefore).
    exists before, after. split; [done|].
    split; [by apply String.eqb_eq|].
    intros c Hc. by apply String.eqb_neq, Hbefore.
  - intros c Hc. apply String.eqb_neq.
    by apply (proj1 (find_nothing _ _) Hfind).
Qed.

(** X13. [handleSelection] emits one change event and changes nothing of
    the component: the chip it holds keeps the selection it had.  The event
    carries a copy of the first chip with the id of the event, with
    [selected] as the event has it and every other property as the chip has
    it, the id included; when no chip has that id, it carries an object
    whose only property is [selected]. *)
Theorem handleSelection_emits_a_copy (event : MDCChipSelectionEvent) w :
  ∃ emitted,
    effects (handleSelection event w) = effects w ++ [change_emit (inl emitted)]
    ∧ this (handleSelection event w) = this w
    ∧ emitted !! "selected" = Some (ofBoolean (selected event))
    ∧ ((∀ c, c ∈ value (this w) → idString c ≠ chipId event) →
       emitted = {[ "selected" := ofBoolean (selected event) ]})
    ∧ ∀ before chip after,
        value (this w) = (before ++ chip :: after)%list →
        idString chip = chipId event →
        (∀ c, c ∈ before → idString c ≠ chipId event) →
        emitted = <[ "selected" := ofBoolean (selected event) ]> chip
        ∧ idString emitted = chipId event
        ∧ ∀ name, name ≠ "selected" → emitted !! name = chip !! name.
Proof.
  eexists. split; [reflexivity|]. split; [done|].
  split; [apply lookup_insert_eq|]. split.
  - intros Hnone.
    rewrite (proj2 (find_nothing _ (value (this w)))).
    + apply insert_empty.
    + intros c Hc. by apply String.eqb_neq, Hnone.
  - intros before chip after Hvalue Hid Hbefore.
    rewrite (find_is_first _ _ before chip after Hvalue).
    + split; [done|]. simpl. split.
      * unfold idString. by rewrite lookup_insert_ne.
      * intros name Hname. by rewrite lookup_insert_ne.
    + by apply String.eqb_eq.
    + intros c Hc. by apply String.eqb_neq, Hbefore.
Qed.

End Handlers.

(** ** Runs *)

Section Runs.

Context `{Runtime}.

Implicit Types (w : World) (c : Call) (calls : list Call).

Lemma run_cons c calls w : run (c :: calls) w = run calls (call c w).
Proof. reflexivity. Qed.

Lemma run_snoc calls c w : run (calls ++ [c]) w = call c (run calls w).
Proof. unfold run. by rewrite foldl_app. Qed.

Lemma count_app p (l l' : list Effect) :
  count p (l ++ l') = count p l + count p l'.
Proof. unfold count. by rewrite List.filter_app, length_app. Qed.

(** Running a call on a component whose fields are named: the body of the
    method is unfolded, and the cases of what it looks at are taken. *)
Ltac run_call w :=
  unfold call, setFocus, emptyInput, componentDidLoad, componentWillUpdate,
    componentDidUpdate, componentDidUnload, handleChangeChips,
    inputFieldOnChange, handleTextFieldFocus, handleInputBlur,
    handleTextInput, handleInteraction, handleSelection, handleRemove,
    catchInputChipClicks, runTimer, createMDCChipSet, destroyMDCChipSet
    in *;
  destruct w as [[? ? ? ? ? ? ? ? ? ? ? ?] ? ?];
  cbn in *;
  repeat (match goal with
          | |- context [match ?x with _ => _ end] => is_var x; destruct x
          end; cbn in *).

Lemma call_properties c w :
  ofTheComponent c = true →
  properties (this (call c w)) = properties (this w).
Proof.
  intros Hc. destruct c; try done; unfold properties; run_call w;
    reflexivity.
Qed.

(** X14. The component never changes its own properties: whatever methods
    are called on it, in any order, as long as the consumer assigns nothing,
    the chips, the type and the other properties are as they were.  Removing
    and selecting a chip is only announced, by the change event. *)
Theorem properties_are_the_consumers calls w :
  forallb ofTheComponent calls = true →
  properties (this (run calls w)) = properties (this w).
Proof.
  revert w. induction calls as [|c calls IH]; intros w; [done|].
  cbn [forallb]. intros [Hc Hcalls]%andb_prop. rewrite run_cons, IH by done.
  by apply call_properties.
Qed.

Lemma call_blurred c w :
  blurred (this (call c w)) = blurred (this w) || isBlur c.
Proof.
  destruct c; run_call w; by rewrite ?orb_false_r, ?orb_true_r.
Qed.

Lemma run_blurred calls w :
  blurred (this (run calls w)) = blurred (this w) || existsb isBlur calls.
Proof.
  revert w. induction calls as [|c calls IH]; intros w.
  - simpl. by rewrite orb_false_r.
  - rewrite run_cons, IH, call_blurred. simpl. by rewrite orb_assoc.
Qed.

(** X15. A chip set is marked invalid only after its input field has lost
    the focus, and from then on whenever it is required and has no chip:
    after any run, [isInvalid] is [true] exactly when the component is
    required, holds no chip, and had been blurred before the run or
    [handleInputBlur] was called in it.  No method takes [blurred] back. *)
Theorem isInvalid_after_blur calls w :
  isInvalid (run calls w) = Some true
  ↔ required (this (run calls w)) = true
    ∧ value (this (run calls w)) = []
    ∧ (blurred (this w) = true ∨ call_handleInputBlur ∈ calls).
Proof.
  unfold isInvalid. rewrite run_blurred.
  assert (existsb isBlur calls = true ↔ call_handleInputBlur ∈ calls) as Hblur.
  { rewrite existsb_exists. split.
    - intros (c & Hc%list_elem_of_In & Hb). by destruct c.
    - intros Hc. exists call_handleInputBlur. by rewrite <- list_elem_of_In. }
  destruct (required (this (run calls w))); simpl.
  2: { split; [done|]. by intros [? _]. }
  destruct (blurred (this w)); simpl.
  - destruct (value (this (run calls w))).
    + split; [auto|done].
    + split; [done|]. by intros (_ & ? & _).
  - destruct (existsb isBlur calls); simpl.
    + destruct (value (this (run calls w))).
      * split; [|done]. intros _. split; [done|]. split; [done|].
        right. by apply Hblur.
      * split; [done|]. by intros (_ & ? & _).
    + split; [done|]. intros (_ & _ & [?|?%Hblur]); done.
Qed.

Lemma call_edits c w :
  count isStopEdit (effects (call c w)) + length (timers (call c w)) =
    count isStopEdit (effects w) + length (timers w)
    + (if isBlur c then 1 else 0)
  ∧ count isSetTimeout (effects (call c w)) =
    count isSetTimeout (effects w) + (if isBlur c then 1 else 0)
  ∧ count isStartEdit (effects (call c w)) =
    count isStartEdit (effects w) + (if isTextFieldFocus c then 1 else 0).
Proof.
  destruct c; run_call w; unfold count;
    rewrite ?List.filter_app, ?length_app; simpl; lia.
Qed.

(** X16. Starting and stopping to edit.  After any run of a component that
    was just created, the start-edit events emitted are as many as the
    calls of [handleTextFieldFocus], and the stop-edit events emitted
    together with the callbacks that wait in the timer queue are as many as
    the calls of [handleInputBlur], each of which set one timer: no
    stop-edit event comes without a blur before it, and none is lost. *)
Theorem edits_are_accounted_for calls :
  let w := run calls created in
  count isStartEdit (effects w) = length (List.filter isTextFieldFocus calls)
  ∧ count isStopEdit (effects w) + length (timers w) =
    length (List.filter isBlur calls)
  ∧ count isSetTimeout (effects w) = length (List.filter isBlur calls).
Proof.
  simpl.
  assert (∀ w,
    count isStartEdit (effects (run calls w)) =
      count isStartEdit (effects w)
      + length (List.filter isTextFieldFocus calls)
    ∧ count isStopEdit (effects (run calls w)) + length (timers (run calls w))
      = count isStopEdit (effects w) + length (timers w)
        + length (List.filter isBlur calls)
    ∧ count isSetTimeout (effects (run calls w)) =
      count isSetTimeout (effects w) + length (List.filter isBlur calls))
    as Hrun.
  { induction calls as [|c calls IH]; intros w; [simpl; lia|].
    rewrite run_cons. destruct (IH (call c w)) as (-> & -> & ->).
    destruct (call_edits c w) as (-> & -> & ->).
    cbn [List.filter].
    destruct (isTextFieldFocus c), (isBlur c); simpl; lia. }
  destruct (Hrun created) as (-> & -> & ->). done.
Qed.

Lemma call_textValue c w :
  textValue (this (call c w)) = textValue (this w)
  ∨ textValue (this (call c w)) = EmptyString
  ∨ ∃ event, c = call_handleTextInput event
             ∧ textValue (this (call c w)) = target_value event.
Proof.
  destruct c; run_call w; eauto.
Qed.

(** X17. The text of the input field is what was typed: after any run of a
    component that was just created, the text the component holds is empty
    or is the text, as it came and not trimmed, of an input event that
    [handleTextInput] was called with in the run. *)
Theorem textValue_was_typed calls :
  textValue (this (run calls created)) = EmptyString
  ∨ ∃ event, call_handleTextInput event ∈ calls
             ∧ textValue (this (run calls created)) = target_value event.
Proof.
  induction calls as [|c calls IH] using rev_ind; [by left|].
  rewrite run_snoc.
  destruct (call_textValue c (run calls created))
    as [->|[->|(event & -> & ->)]].
  - destruct IH as [?|(event & Hin & ->)]; [by left|].
    right. exists event. split; [|done]. apply elem_of_app. by left.
  - by left.
  - right. exists event. split; [|done]. apply elem_of_app. right.
    apply list_elem_of_here.
Qed.

(** ** The lifecycle and the listeners *)

Lemma listeners_snoc (log : list Effect) (e : Effect) :
  listeners (log ++ [e]) = afterEffect (listeners log) e.
Proof. unfold listeners. by rewrite foldl_app. Qed.

Lemma effects_does (e : Effect) w : effects (does e w) = effects w ++ [e].
Proof. reflexivity. Qed.

(** What [createMDCChipSet] adds to the log, and what it keeps. *)
Lemma createMDCChipSet_run (root : Element) w :
  let chipSet := {| chipSetRoot := root |} in
  effects (createMDCChipSet root w) =
    effects w
    ++ [new_MDCChipSet chipSet; shouldRemoveOnTrailingIconClick_false chipSet]
    ++ map (λ l, listen chipSet l.1.2 l.2) (wiring root (type (this w)))
  ∧ mdcChipSet (this (createMDCChipSet root w)) = Some chipSet
  ∧ mdcTextField (this (createMDCChipSet root w)) = mdcTextField (this w)
  ∧ type (this (createMDCChipSet root w)) = type (this w)
  ∧ editMode (this (createMDCChipSet root w)) = editMode (this w).
Proof.
  unfold createMDCChipSet. destruct w as [[? t ? ? ? ? ? ? ? ? ? ?] log ?].
  destruct t as [[]|]; cbn; rewrite <- ?app_assoc; done.
Qed.

(** What [destroyMDCChipSet] adds to the log. *)
Lemma destroyMDCChipSet_run w :
  effects (destroyMDCChipSet w) =
    effects w
    ++ match mdcChipSet (this w) with
       | Some chipSet =>
           [unlisten chipSet "MDCChip:interaction" handleInteraction_;
            unlisten chipSet "MDCChip:selection" handleSelection_;
            unlisten chipSet "MDCChip:trailingIconInteraction" handleRemove_;
            destroy_MDCChipSet chipSet]
       | None => []
       end
  ∧ this (destroyMDCChipSet w) = this w.
Proof.
  unfold destroyMDCChipSet. destruct w as [[? ? ? ? ? ? ? ? ? ? set ?] log ?].
  destruct set; cbn; rewrite <- ?app_assoc, ?app_nil_r; done.
Qed.

Lemma listeners_app (log log' : list Effect) :
  listeners (log ++ log') = foldl afterEffect (listeners log) log'.
Proof. unfold listeners. by rewrite foldl_app. Qed.

Lemma createMDCChipSet_wiring (root : Element) w :
  listeners (effects w) = [] →
  listeners (effects (createMDCChipSet root w)) = wiring root (type (this w)).
Proof.
  intros Hnone. destruct (createMDCChipSet_run root w) as [-> _].
  rewrite listeners_app, Hnone.
  destruct (type (this w)) as [[]|]; cbn; unfold sameListener;
    cbn [fst snd]; by rewrite ?Nat.eqb_refl.
Qed.

Lemma destroyMDCChipSet_unwires chipSet t w :
  mdcChipSet (this w) = Some chipSet →
  listeners (effects w) = wiring (chipSetRoot chipSet) t →
  listeners (effects (destroyMDCChipSet w)) = [].
Proof.
  intros Hset Hwiring. destruct (destroyMDCChipSet_run w) as [-> _].
  rewrite listeners_app, Hwiring, Hset.
  destruct t as [[]|]; cbn;
    repeat (unfold sameListener; cbn [fst snd]; rewrite Nat.eqb_refl; cbn);
    done.
Qed.

(** Computing with the listeners of a log that is written out. *)
Ltac compare_listeners :=
  cbn;
  repeat (unfold sameListener; cbn [fst snd]; rewrite Nat.eqb_refl; cbn).

(** A call that is not of the lifecycle leaves the objects of the Material
    library and the listeners alone. *)
Lemma call_quiet c w :
  isLifecycle c = false →
  mdcChipSet (this (call c w)) = mdcChipSet (this w)
  ∧ mdcTextField (this (call c w)) = mdcTextField (this w)
  ∧ listeners (effects (call c w)) = listeners (effects w)
  ∧ count isNewChipSet (effects (call c w)) = count isNewChipSet (effects w)
  ∧ count isDestroyChipSet (effects (call c w))
    = count isDestroyChipSet (effects w)
  ∧ count isNewTextField (effects (call c w))
    = count isNewTextField (effects w)
  ∧ count isDestroyTextField (effects (call c w))
    = count isDestroyTextField (effects w).
Proof.
  intros Hc. destruct c; try done; run_call w;
    unfold listeners, count;
    rewrite ?foldl_app, ?List.filter_app, ?length_app; cbn;
    rewrite ?Nat.add_0_r; done.
Qed.

Lemma componentDidLoad_inPhase textField chipSet w :
  inPhase Created w → inPhase Loaded (componentDidLoad textField chipSet w).
Proof.
  intros (Hset & Hfield & Hnone & Hchips & Hfields).
  unfold componentDidLoad, createMDCChipSet.
  destruct w as [[? t ? ? ? ? ? ? ? ? ? ?] log ?]. cbn in *. subst.
  split; [exists {| chipSetRoot := chipSet |}, t;
          split; [by destruct t as [[]|]|]|].
  - destruct t as [[]|]; cbn; unfold listeners in *;
      rewrite ?foldl_app, ?Hnone; compare_listeners; done.
  - destruct t as [[]|]; cbn; unfold count in *;
      rewrite ?List.filter_app, ?length_app; cbn; lia.
Qed.

Lemma componentWillUpdate_inPhase w :
  inPhase Loaded w → inPhase Updating (componentWillUpdate w).
Proof.
  intros ((chipSet & t & Hset & Hwiring) & Hchips & Hfields).
  unfold componentWillUpdate, destroyMDCChipSet.
  destruct w as [[? ? ? ? ? ? ? ? ? ? ? field] log ?]. cbn in *. subst.
  cbn. split; [done|]. split.
  - unfold listeners in *. rewrite ?foldl_app, ?Hwiring.
    destruct t as [[]|]; compare_listeners; done.
  - unfold count in *. rewrite ?List.filter_app, ?length_app. cbn. lia.
Qed.

Lemma componentDidUpdate_inPhase chipSet inputElement w :
  inPhase Updating w →
  inPhase Loaded (componentDidUpdate chipSet inputElement w).
Proof.
  intros (Hset & Hnone & Hchips & Hfields).
  unfold componentDidUpdate, createMDCChipSet.
  destruct w as [[? t ? ? ? ? ? edit ? ? ? field] log ?]. cbn in *.
  split; [exists {| chipSetRoot := chipSet |}, t;
          split; [by destruct t as [[]|], inputElement, edit|]|].
  - destruct t as [[]|], inputElement, edit; cbn; unfold listeners in *;
      rewrite ?foldl_app, ?Hnone; compare_listeners; done.
  - destruct t as [[]|], inputElement, edit; cbn; unfold count in *;
      rewrite ?List.filter_app, ?length_app; cbn; lia.
Qed.

Lemma componentDidUnload_inPhase w :
  inPhase Loaded w → inPhase Unloaded (componentDidUnload w).
Proof.
  intros ((chipSet & t & Hset & Hwiring) & Hchips & Hfields).
  unfold componentDidUnload, destroyMDCChipSet.
  destruct w as [[? ? ? ? ? ? ? ? ? ? ? field] log ?]. cbn in *. subst.
  cbn. split.
  - destruct field; cbn; unfold listeners in *; rewrite ?foldl_app, ?Hwiring;
      destruct t as [[]|]; compare_listeners; done.
  - destruct field; cbn; unfold count in *;
      rewrite ?List.filter_app, ?length_app; cbn; lia.
Qed.

Lemma call_inPhase p p' c w :
  nextPhase p c = Some p' → inPhase p w → inPhase p' (call c w).
Proof.
  intros Hnext Hp.
  destruct (isLifecycle c) eqn:Hlifecycle.
  2: { assert (p' = p) as -> by (destruct c, p; cbn in *; by simplify_eq).
       destruct (call_quiet c w Hlifecycle)
         as (Hset & Hfield & Hlisteners & Hn & Hd & Hnt & Hdt).
       destruct p; unfold inPhase in *;
         by rewrite ?Hset, ?Hfield, ?Hlisteners, ?Hn, ?Hd, ?Hnt, ?Hdt. }
  destruct c; try done; destruct p; cbn in Hnext; simplify_eq; cbn [call].
  - by apply componentDidLoad_inPhase.
  - by apply componentWillUpdate_inPhase.
  - by apply componentDidUpdate_inPhase.
  - by apply componentDidUnload_inPhase.
Qed.

Lemma run_inPhase p p' calls w :
  phaseAfter p calls = Some p' → inPhase p w → inPhase p' (run calls w).
Proof.
  revert p w. induction calls as [|c calls IH]; intros p w; cbn [phaseAfter].
  - by intros [= ->].
  - destruct (nextPhase p c) as [p''|] eqn:Hnext; [|done].
    intros Hafter Hp. rewrite run_cons. apply (IH p''); [done|].
    by apply (call_inPhase p).
Qed.

Lemma created_inPhase : inPhase Created created.
Proof. by repeat split. Qed.

(** X18. The listeners follow the type of the chip set.  In a lifecycle
    that runs in order, whatever else is called and assigned in between,
    the listeners registered right after the component was loaded or
    updated are exactly those of the type it has then, on the root found
    then: the remove handler always, the interaction handler for no type
    and for an input chip set, the selection handler for a choice and a
    filter chip set.  None is left over from a type it had before. *)
Theorem listeners_follow_the_type calls :
  let w := run calls created in
  (phaseAfter Created calls = Some Created →
   ∀ textField root,
     listeners (effects (componentDidLoad textField root w))
     = wiring root (type (this w)))
  ∧ (phaseAfter Created calls = Some Updating →
     ∀ root inputElement,
       listeners (effects (componentDidUpdate root inputElement w))
       = wiring root (type (this w))).
Proof.
  cbn zeta. split; intros Hphase.
  - destruct (run_inPhase _ _ _ _ Hphase created_inPhase)
      as (_ & _ & Hnone & _).
    intros textField root. revert Hnone.
    unfold componentDidLoad, createMDCChipSet.
    destruct (run calls created) as [[? t ? ? ? ? ? ? ? ? ? ?] log ?].
    cbn. intros Hnone.
    destruct t as [[]|]; cbn; unfold listeners in *;
      rewrite ?foldl_app, ?Hnone; compare_listeners; done.
  - destruct (run_inPhase _ _ _ _ Hphase created_inPhase)
      as (_ & Hnone & _).
    intros root inputElement. revert Hnone.
    unfold componentDidUpdate, createMDCChipSet.
    destruct (run calls created) as [[? t ? ? ? ? ? edit ? ? ? ?] log ?].
    cbn. intros Hnone.
    destruct t as [[]|], inputElement, edit; cbn; unfold listeners in *;
      rewrite ?foldl_app, ?Hnone; compare_listeners; done.
Qed.

(** X19. While the component is loaded, in a lifecycle that runs in order,
    the listeners registered are those of one type, all of them on the root
    of the chip set the component keeps: the remove handler and either the
    interaction handler or the selection handler, never both. *)
Theorem listeners_while_loaded calls :
  phaseAfter Created calls = Some Loaded →
  ∃ chipSet t,
    mdcChipSet (this (run calls created)) = Some chipSet
    ∧ listeners (effects (run calls created))
      = wiring (chipSetRoot chipSet) t.
Proof.
  intros Hphase.
  by destruct (run_inPhase _ _ _ _ Hphase created_inPhase) as [? _].
Qed.

(** X20. Nothing is left behind.  After a lifecycle that ran in order and
    ended with [componentDidUnload], no listener of the component is
    registered on any element, and every chip set and text field of the
    Material library that the component made has been destroyed. *)
Theorem nothing_left_after_unload calls :
  phaseAfter Created calls = Some Unloaded →
  let log := effects (run calls created) in
  listeners log = []
  ∧ count isNewChipSet log = count isDestroyChipSet log
  ∧ count isNewTextField log = count isDestroyTextField log.
Proof.
  intros Hphase. exact (run_inPhase _ _ _ _ Hphase created_inPhase).
Qed.

End Runs.

(** ** What is rendered *)

Section Rendering.

Context `{Runtime}.

Implicit Types (w : World) (chip : Chip) (chips : list Chip).

(** Counting in a list made of a few elements for each chip. *)
Lemma count_per_chip (q : VNode → bool) (g : Chip → list VNode)
    (p : Chip → bool) chips :
  (∀ chip, length (List.filter q (g chip)) = if p chip then 1 else 0) →
  length (List.filter q (concat (map g chips)))
  = length (List.filter p chips).
Proof.
  intros Hchip. induction chips as [|chip chips IH]; simpl; [done|].
  rewrite List.filter_app, length_app, IH, Hchip.
  by destruct (p chip).
Qed.

Lemma count_in_no_chip (q : VNode → bool) (g : Chip → list VNode) chips :
  (∀ chip, List.filter q (g chip) = []) →
  List.filter q (concat (map g chips)) = [].
Proof.
  intros Hchip. induction chips as [|chip chips IH]; simpl; [done|].
  by rewrite List.filter_app, IH, Hchip.
Qed.

Lemma omap_per_chip {B} (f : VNode → option B) (g : Chip → list VNode)
    (k : Chip → B) chips :
  (∀ chip, omap f (g chip) = [k chip]) →
  omap f (concat (map g chips)) = map k chips.
Proof.
  intros Hchip. induction chips as [|chip chips IH]; simpl; [done|].
  by rewrite omap_app, IH, Hchip.
Qed.

(** The elements of what is rendered: the root, and for an input chip set
    the chip set in it, then the elements of the chips one after the other,
    and for an input chip set the input field, the label and the line. *)
Lemma elements_render w :
  ∃ before after,
    elements (render w) =
      before
      ++ concat (map (λ chip,
                        elements (match type (this w) with
                                  | Some input => renderInputChip chip
                                  | _ => renderChip (this w) chip
                                  end))
                   (value (this w)))
      ++ after
    ∧ omap (stringProp "id") before = []
    ∧ omap (stringProp "id") after =
        match type (this w) with
        | Some input => ["my-text-field"]
        | _ => []
        end
    ∧ List.filter (hasTag "input") before = []
    ∧ length (List.filter (hasTag "input") after) =
        match type (this w) with Some input => 1 | _ => 0 end
    ∧ (∀ class, class ∈ ["mdc-chip__icon mdc-chip__icon--leading";
                         "mdc-chip__icon mdc-chip__icon--trailing";
                         "mdc-chip mdc-chip--selected"] →
        List.filter (hasClass class) before = []
        ∧ List.filter (hasClass class) after = []).
Proof.
  unfold render.
  destruct (type (this w)) as [[]|] eqn:Htype;
    [eexists [_], []|eexists [_], []|
     unfold renderInputChips; eexists [_; _], [_; _; _]|eexists [_], []].
  all: split;
    [cbn [elements map concat]; rewrite !app_nil_r, map_map;
     cbn [app]; rewrite <- ?app_assoc; reflexivity|].
  all: do 4 (split; [reflexivity|]).
  all: intros class Hclass; cases_of Hclass; by split.
Qed.

(** The elements of one chip. *)
Lemma elements_of_chip (t : option ChipSetType) cs chip :
  type cs = t →
  let chipElements :=
    elements (match t with
              | Some input => renderInputChip chip
              | _ => renderChip cs chip
              end) in
  omap (stringProp "id") chipElements = [idString chip]
  ∧ List.filter (hasTag "input") chipElements = []
  ∧ length (List.filter isTrailingIcon chipElements) =
      match t with
      | Some input => if toBoolean (chip !! "removable") then 1 else 0
      | _ => 0
      end
  ∧ length (List.filter isLeadingIcon chipElements) =
      match t with
      | Some filter => 0
      | _ => if toBoolean (chip !! "icon") then 1 else 0
      end
  ∧ length (List.filter isSelectedChip chipElements) =
      match t with
      | Some choice | Some filter =>
          if toBoolean (chip !! "selected") then 1 else 0
      | _ => 0
      end.
Proof.
  intros Htype. unfold renderChip. rewrite Htype.
  unfold renderInputChip, renderChoiceChip, renderFilterChip,
    renderDefaultChip, renderIcon, renderTrailingIcon.
  destruct t as [[]|];
    destruct (toBoolean (chip !! "icon")),
      (toBoolean (chip !! "removable")),
      (toBoolean (chip !! "selected")),
      (toBoolean (chip !! "iconColor"));
    by repeat split.
Qed.

Lemma find_none_iff_filter {A} (q : A → bool) (l : list A) :
  list_find (λ x, q x = true) l = None ↔ List.filter q l = [].
Proof.
  rewrite list_find_None. induction l as [|a l IH]; simpl.
  - split; [done|]. intros _. constructor.
  - rewrite Forall_cons, IH. destruct (q a); split; try done.
    + by intros [? _].
    + by intros [_ ?].
Qed.

(** The elements of the chips that have an id. *)
Lemma ids_of_chips w :
  omap (stringProp "id")
    (concat (map (λ chip,
                    elements (match type (this w) with
                              | Some input => renderInputChip chip
                              | _ => renderChip (this w) chip
                              end))
               (value (this w))))
  = map idString (value (this w)).
Proof.
  apply omap_per_chip. intros chip.
  by destruct (elements_of_chip (type (this w)) (this w) chip eq_refl)
    as [? _].
Qed.

(** X21. The ids of what is rendered are the ids of the chips: the elements
    that have an id are, in document order, one for each chip, in the order
    of the chips and with the string its id makes, followed in an input
    chip set by the input field. *)
Theorem rendered_ids w :
  omap (stringProp "id") (elements (render w)) =
  map idString (value (this w))
  ++ match type (this w) with
     | Some input => ["my-text-field"]
     | _ => []
     end.
Proof.
  destruct (elements_render w) as (before & after & -> & Hbefore & Hafter & _).
  by rewrite !omap_app, Hbefore, Hafter, ids_of_chips.
Qed.

(** An input field is rendered exactly in an input chip set. *)
Lemma querySelector_input_render w :
  is_Some (querySelector_input (render w)) ↔ type (this w) = Some input.
Proof.
  unfold querySelector_input.
  rewrite fmap_is_Some, <- not_eq_None_Some, find_none_iff_filter.
  destruct (elements_render w)
    as (before & after & -> & _ & _ & Hbefore & Hafter & _).
  rewrite !List.filter_app, Hbefore, count_in_no_chip; cbn [app].
  - destruct (type (this w)) as [[]|],
      (List.filter (hasTag "input") after); naive_solver.
  - intros chip.
    by destruct (elements_of_chip (type (this w)) (this w) chip eq_refl)
      as (_ & ? & _).
Qed.

(** X22. Setting the focus on what is rendered: the component is in edit mode
    afterwards whatever its type, the input field is focused in an input
    chip set, and in every other chip set there is no input field and the
    method is rejected with a [TypeError], after it has set the edit
    mode. *)
Theorem setFocus_needs_the_input_field w :
  let (result, w') := setFocus (querySelector_input (render w)) w in
  editMode (this w') = true
  ∧ match type (this w) with
    | Some input => result = Normal tt ∧ effects w' = effects w ++ [focus]
    | _ =>
        (∃ message, result = Throw (TypeError message))
        ∧ effects w' = effects w
    end.
Proof.
  pose proof (querySelector_input_render w) as Hinput.
  unfold setFocus.
  destruct (querySelector_input (render w)) as [e|];
    (split; [done|]).
  - destruct Hinput as [-> _]; by eauto.
  - destruct (type (this w)) as [[]|]; try by (split; [eexists|]).
    by destruct Hinput as [_ []].
Qed.

Lemma count_rendered (q : VNode → bool) (p : Chip → bool) class w :
  q = hasClass class →
  class ∈ ["mdc-chip__icon mdc-chip__icon--leading";
           "mdc-chip__icon mdc-chip__icon--trailing";
           "mdc-chip mdc-chip--selected"] →
  (∀ chip,
     length (List.filter q
               (elements (match type (this w) with
                          | Some input => renderInputChip chip
                          | _ => renderChip (this w) chip
                          end)))
     = if p chip then 1 else 0) →
  length (List.filter q (elements (render w)))
  = length (List.filter p (value (this w))).
Proof.
  intros -> Hclass Hchip.
  destruct (elements_render w)
    as (before & after & -> & _ & _ & _ & _ & Hrest).
  destruct (Hrest class Hclass) as [Hbefore Hafter].
  rewrite !List.filter_app, Hbefore, Hafter, app_nil_r. cbn [app].
  by apply count_per_chip.
Qed.

(** X23. The icon to remove a chip is rendered for the removable chips of
    an input chip set, and for no chip of a chip set of another type. *)
Theorem trailing_icons_of_removable_input_chips w :
  length (List.filter isTrailingIcon (elements (render w))) =
  match type (this w) with
  | Some input =>
      length (List.filter (λ chip, toBoolean (chip !! "removable"))
                (value (this w)))
  | _ => 0
  end.
Proof.
  pose proof (λ chip,
    elements_of_chip (type (this w)) (this w) chip eq_refl) as Hchip.
  cbv zeta in Hchip.
  transitivity (length (List.filter
    (λ chip, match type (this w) with
             | Some input => toBoolean (chip !! "removable")
             | _ => false
             end) (value (this w)))).
  - apply (count_rendered _ _ "mdc-chip__icon mdc-chip__icon--trailing");
      [done|in_list|].
    intros chip. destruct (Hchip chip) as (_ & _ & -> & _).
    by destruct (type (this w)) as [[]|].
  - destruct (type (this w)) as [[]|]; try done.
    all: by induction (value (this w)).
Qed.

(** X24. The icon of a chip is rendered for the chips that have one, except
    in a filter chip set, where no chip has its icon rendered. *)
Theorem leading_icons_except_in_a_filter w :
  length (List.filter isLeadingIcon (elements (render w))) =
  match type (this w) with
  | Some filter => 0
  | _ =>
      length (List.filter (λ chip, toBoolean (chip !! "icon"))
                (value (this w)))
  end.
Proof.
  pose proof (λ chip,
    elements_of_chip (type (this w)) (this w) chip eq_refl) as Hchip.
  cbv zeta in Hchip.
  transitivity (length (List.filter
    (λ chip, match type (this w) with
             | Some filter => false
             | _ => toBoolean (chip !! "icon")
             end) (value (this w)))).
  - apply (count_rendered _ _ "mdc-chip__icon mdc-chip__icon--leading");
      [done|in_list|].
    intros chip. destruct (Hchip chip) as (_ & _ & _ & -> & _).
    by destruct (type (this w)) as [[]|].
  - destruct (type (this w)) as [[]|]; try done.
    by induction (value (this w)).
Qed.

(** X25. A chip is rendered as selected when it is selected and the chip
    set is one of choice or filter chips; no chip of an input chip set or
    of a chip set without a type is. *)
Theorem selected_chips_of_choice_and_filter w :
  length (List.filter isSelectedChip (elements (render w))) =
  match type (this w) with
  | Some choice | Some filter =>
      length (List.filter (λ chip, toBoolean (chip !! "selected"))
                (value (this w)))
  | _ => 0
  end.
Proof.
  pose proof (λ chip,
    elements_of_chip (type (this w)) (this w) chip eq_refl) as Hchip.
  cbv zeta in Hchip.
  transitivity (length (List.filter
    (λ chip, match type (this w) with
             | Some choice | Some filter => toBoolean (chip !! "selected")
             | _ => false
             end) (value (this w)))).
  - apply (count_rendered _ _ "mdc-chip mdc-chip--selected");
      [done|in_list|].
    intros chip. destruct (Hchip chip) as (_ & _ & _ & _ & ->).
    by destruct (type (this w)) as [[]|].
  - destruct (type (this w)) as [[]|]; try done.
    all: by induction (value (this w)).
Qed.

Lemma find_is_first_distinct chips chip :
  NoDup (map idString chips) → chip ∈ chips →
  List.find (λ item, String.eqb (idString item) (idString chip)) chips
  = Some chip.
Proof.
  intros Hdistinct (before & after & ->)%list_elem_of_split.
  eapply find_is_first; [done|apply String.eqb_refl|].
  intros c Hc. apply String.eqb_neq. intros Heq.
  rewrite map_app in Hdistinct. simpl in Hdistinct.
  apply NoDup_app in Hdistinct as (_ & Hbefore & _).
  apply (Hbefore (idString c)); [by apply list_elem_of_fmap_2|].
  rewrite Heq. apply list_elem_of_here.
Qed.

(** X26. From what is rendered back to the chip: when the chips have
    different ids, the element rendered for a chip carries an id with which
    an interaction is answered with that very chip. *)
Theorem interaction_with_a_rendered_chip w i chip :
  NoDup (map idString (value (this w))) →
  value (this w) !! i = Some chip →
  ∃ id,
    omap (stringProp "id") (elements (render w)) !! i = Some id
    ∧ effects (handleInteraction {| chipId := id |} w)
      = effects w ++ [interact_emit (Some chip)].
Proof.
  intros Hdistinct Hchip. exists (idString chip). split.
  - destruct (elements_render w) as (before & after & -> & Hbefore & _).
    rewrite !omap_app, Hbefore, ids_of_chips. cbn [app].
    rewrite lookup_app_l.
    + by rewrite list_lookup_fmap, Hchip.
    + rewrite length_map. by apply lookup_lt_Some in Hchip.
  - unfold handleInteraction, does. cbn.
    rewrite find_is_first_distinct;
      [done|done|by eapply list_elem_of_lookup_2].
Qed.

End Rendering.

(** ** The edit mode, and a chip that was removed *)

Section EditMode.

Context `{Runtime}.

Implicit Types (w : World) (c : Call) (calls : list Call).

Lemma call_editMode c w :
  editMode (this (call c w)) = default (editMode (this w)) (editing c).
Proof.
  unfold call, setFocus, emptyInput, componentDidLoad, componentWillUpdate,
    componentDidUpdate, componentDidUnload, handleChangeChips,
    inputFieldOnChange, handleTextFieldFocus, handleInputBlur,
    handleTextInput, handleInteraction, handleSelection, handleRemove,
    catchInputChipClicks, runTimer, createMDCChipSet, destroyMDCChipSet.
  destruct w as [[? ? ? ? ? ? ? ? ? ? ? ?] ? ?], c; cbn;
    repeat (match goal with
            | |- context [match ?x with _ => _ end] => is_var x; destruct x
            end; cbn);
    reflexivity.
Qed.

(** X27. The edit mode is that of the last call that enters or leaves it:
    after any run, [getEditMode] gives [true] when the last of the calls of
    [setFocus], [handleTextFieldFocus] and [handleInputBlur] was one of the
    first two, a rejected [setFocus] included, [false] when it was the blur,
    and what it gave before the run when there was none.  No other method
    and no assignment of the consumer changes it. *)
Theorem getEditMode_is_the_last calls w :
  getEditMode (run calls w)
  = default (getEditMode w) (last (omap editing calls)).
Proof.
  unfold getEditMode.
  induction calls as [|c calls IH] using rev_ind; [done|].
  rewrite run_snoc, call_editMode, IH, omap_app.
  destruct c; cbn; by rewrite ?last_snoc, ?app_nil_r.
Qed.

(** X28. A chip that was removed is gone once the consumer assigns the chips
    of the change event: what is rendered then has the ids of the chips
    before, in their order, without the id of the event, and the text of the
    input field is empty. *)
Theorem removed_chip_is_not_rendered
    (event : MDCChipInteractionEvent) w newValue :
  effects (handleRemove event w) = effects w ++ [change_emit (inr newValue)] →
  let w' := call (assign_value newValue) (handleRemove event w) in
  omap (stringProp "id") (elements (render w'))
  = List.filter (λ id, negb (String.eqb id (chipId event)))
      (map idString (value (this w)))
    ++ match type (this w) with
       | Some input => ["my-text-field"]
       | _ => []
       end
  ∧ textValue (this w') = EmptyString.
Proof.
  intros Hemitted w'.
  apply app_inj_tail in Hemitted as [_ [= <-]].
  split; [|done].
  destruct (elements_render w')
    as (before & after & -> & Hbefore & Hafter & _).
  rewrite !omap_app, Hbefore, Hafter, ids_of_chips. cbn [app]. f_equal.
  cbn. induction (value (this w)) as [|chip chips IH]; [done|].
  cbn. destruct (negb _); cbn; by rewrite IH.
Qed.

End EditMode.

End ChipSetProperties.


(** * The further properties at sample inputs *)

(** The strong action with a URL, on the full schema. *)
Lemma getCommand_ignores_url_witness :
  getCommand factory EditorMenuTypes.Strong (Some "https://example.com")
    (storeOf fullSchema)
  = getCommand factory EditorMenuTypes.Strong None (storeOf fullSchema).
Proof.
  by apply (getCommand_ignores_url (MarkType := string) (NodeType := string)).
Defined.

(** The strong action on the full schema and on the schema without bold. *)
Lemma getCommand_resolves_iff_witness :
  ((∃ c σ', getCommand factory EditorMenuTypes.Strong None (storeOf fullSchema)
            = (Normal c, σ'))
   ↔ EditorMenuTypes.Strong ∈ EditorMenuTypes.values
     ∧ ∃ p, requiredPrimitive EditorMenuTypes.Strong = Some p
            ∧ available fullSchema p)
  ∧ ((∃ c σ', getCommand factory EditorMenuTypes.Strong None
                (storeOf schemaWithoutStrong) = (Normal c, σ'))
     ↔ EditorMenuTypes.Strong ∈ EditorMenuTypes.values
       ∧ ∃ p, requiredPrimitive EditorMenuTypes.Strong = Some p
              ∧ available schemaWithoutStrong p).
Proof.
  split.
  - apply (getCommand_resolves_iff factory EditorMenuTypes.Strong None
             (storeOf fullSchema) fullSchema).
    apply storeOf_schema.
  - apply (getCommand_resolves_iff factory EditorMenuTypes.Strong None
             (storeOf schemaWithoutStrong) schemaWithoutStrong).
    apply storeOf_schema.
Defined.

(** The blockquote action on the full schema. *)
Lemma getCommand_wraps_witness :
  getCommand factory EditorMenuTypes.Blockquote None (storeOf fullSchema)
  = (Normal (wrapIn "<blockquote>"), storeOf fullSchema)
  ∧ getCommand factory EditorMenuTypes.BulletList None (storeOf fullSchema)
    = (Normal (wrapInList "<ul>"), storeOf fullSchema).
Proof.
  destruct (getCommand_wraps factory None (storeOf fullSchema) fullSchema
              (storeOf_schema fullSchema)) as [Hblockquote Hlists].
  split; [exact Hblockquote|].
  apply (Hlists EditorMenuTypes.BulletList). in_list.
Defined.

(** The first and the third heading level on the schema without
    headings. *)
Lemma heading_actions_fail_together_witness :
  fails factory (storeOf schemaWithoutHeading) EditorMenuTypes.HeaderLevel1
    (Error (quoted "Node type " "heading" " not found in schema"))
  ∧ fails factory (storeOf schemaWithoutHeading) EditorMenuTypes.HeaderLevel3
      (Error (quoted "Node type " "heading" " not found in schema")).
Proof.
  assert (fails factory (storeOf schemaWithoutHeading)
            EditorMenuTypes.HeaderLevel1
            (Error (quoted "Node type " "heading" " not found in schema")))
    as Hfails by (by eexists).
  split; [exact Hfails|].
  apply (heading_actions_fail_together factory (storeOf schemaWithoutHeading)
           EditorMenuTypes.HeaderLevel1 EditorMenuTypes.HeaderLevel3
           1%Z 3%Z); [in_list|in_list|exact Hfails].
Defined.

(** A heading of level two, on the full schema. *)
Lemma createSetNodeTypeCommand_binds_whole_level_iff_witness :
  ∃ c σ',
    createSetNodeTypeCommand 0 "heading" (Some 2%Z) (storeOf fullSchema)
    = (Normal c, σ')
    ∧ bare c = setBlockType "<h>" None
    ∧ (is_Some (attrsOf c)
       ↔ "heading" = "heading" ∧ ∃ l, Some 2%Z = Some l ∧ l ≠ 0%Z)
    ∧ (attrsOf c = None → σ' = storeOf fullSchema)
    ∧ ∀ l, Some 2%Z = Some l → is_Some (attrsOf c) →
        attribute σ' c "level" = Some (VNumber l).
Proof.
  apply (createSetNodeTypeCommand_binds_whole_level_iff 0 "heading"
           (Some 2%Z)
           (storeOf fullSchema) fullSchema "<h>").
  - apply storeOf_schema.
  - reflexivity.
Defined.

(** The keymap on the schema without bold. *)
Lemma buildKeymap_succeeds_iff_witness :
  (∃ km σ', buildKeymap factory (storeOf schemaWithoutStrong)
            = (Normal km, σ'))
  ↔ is_Some (marks schemaWithoutStrong !! "strong")
    ∧ is_Some (marks schemaWithoutStrong !! "em")
    ∧ is_Some (nodes schemaWithoutStrong !! "heading").
Proof.
  apply (buildKeymap_succeeds_iff factory (storeOf schemaWithoutStrong)
           schemaWithoutStrong).
  apply storeOf_schema.
Defined.

(** The keymap on the schema without headings throws after two shortcuts
    were resolved. *)
Lemma buildKeymap_throws_nothing_allocated_witness :
  ∃ e σ',
    buildKeymap factory (storeOf schemaWithoutHeading) = (Throw e, σ')
    ∧ σ' = storeOf schemaWithoutHeading.
Proof.
  eexists _, _. split; [reflexivity|].
  by apply (buildKeymap_throws_nothing_allocated factory
              (storeOf schemaWithoutHeading)
              (Error (quoted "Node type " "heading" " not found in schema"))).
Defined.

(** The bindings of the first and the second heading level, on the full
    schema. *)
Lemma buildKeymap_bindings_independent_witness :
  ∃ km σ' c c',
    buildKeymap factory (storeOf fullSchema) = (Normal km, σ')
    ∧ km !! "Mod-Shift-1" = Some c ∧ km !! "Mod-Shift-2" = Some c'
    ∧ independent c c'
    ∧ ∀ r, attrsOf c = Some r →
        objects (storeOf fullSchema) !! r = None ∧ is_Some (objects σ' !! r).
Proof.
  eexists _, _, _, _.
  split; [reflexivity|]. split; [reflexivity|]. split; [reflexivity|].
  eapply (buildKeymap_bindings_independent factory (storeOf fullSchema)
            _ _ "Mod-Shift-1" "Mod-Shift-2"); [reflexivity..|done].
Defined.

(** A link with a URL, on the full schema. *)
Lemma getCommand_allocation_witness :
  ∃ c σ',
    getCommand factory EditorMenuTypes.Link (Some "https://example.com")
      (storeOf fullSchema) = (Normal c, σ')
    ∧ schemas σ' = schemas (storeOf fullSchema)
    ∧ match attrsOf c with
      | None => σ' = storeOf fullSchema
      | Some ref =>
          ref = length (objects (storeOf fullSchema))
          ∧ ∃ o, σ' = allocated (storeOf fullSchema) o
                 ∧ objects σ' !! ref = Some o
      end.
Proof.
  eexists _, _. split; [reflexivity|].
  by eapply (getCommand_allocation factory EditorMenuTypes.Link
               (Some "https://example.com") (storeOf fullSchema)
               (Normal _)).
Defined.

Module ChipSetSamples.

Import ChipSet ChipSetProperties.

Local Open Scope list_scope.

Lemma fruits_distinct : NoDup (map idString (value (this fruits))).
Proof. apply (bool_decide_unpack _). by vm_compute. Qed.

(** Removing the pear from the three fruits. *)
Lemma handleRemove_removes_that_chip_witness :
  effects (handleRemove {| chipId := "2" |} fruits)
  = [change_emit (inr [apple; plum])].
Proof.
  apply (handleRemove_removes_that_chip fruits [apple] [plum] pear).
  - apply fruits_distinct.
  - reflexivity.
Defined.

(** The sample handling leaves the three fruits as they are. *)
Lemma properties_are_the_consumers_witness :
  properties (this (run sampleHandling fruits)) = properties (this fruits).
Proof.
  by apply (properties_are_the_consumers sampleHandling fruits).
Defined.

(** Loading a chip set of choice chips, and updating the chip set of the
    sample lifecycle. *)
Lemma listeners_follow_the_type_witness :
  listeners (effects (componentDidLoad 0 1
                        (run [assign_type (Some choice)] created)))
  = [(1, "MDCChip:selection", handleSelection_);
     (1, "MDCChip:trailingIconInteraction", handleRemove_)]
  ∧ listeners (effects (componentDidUpdate 2 None
                          (run (sampleLifecycle ++ [call_componentWillUpdate])
                             created)))
    = [(2, "MDCChip:selection", handleSelection_);
       (2, "MDCChip:trailingIconInteraction", handleRemove_)].
Proof.
  split.
  - by apply (proj1 (listeners_follow_the_type [assign_type (Some choice)])).
  - by apply (proj2 (listeners_follow_the_type
                       (sampleLifecycle ++ [call_componentWillUpdate]))).
Defined.

(** The sample lifecycle ends loaded. *)
Lemma listeners_while_loaded_witness :
  phaseAfter Created sampleLifecycle = Some Loaded
  ∧ ∃ chipSet t,
      mdcChipSet (this (run sampleLifecycle created)) = Some chipSet
      ∧ listeners (effects (run sampleLifecycle created))
        = wiring (chipSetRoot chipSet) t.
Proof.
  split; [reflexivity|].
  by apply (listeners_while_loaded sampleLifecycle).
Defined.

(** The sample lifecycle, then unloaded. *)
Lemma nothing_left_after_unload_witness :
  let log :=
    effects (run (sampleLifecycle ++ [call_componentDidUnload]) created) in
  listeners log = []
  ∧ count isNewChipSet log = count isDestroyChipSet log
  ∧ count isNewTextField log = count isDestroyTextField log.
Proof.
  by apply (nothing_left_after_unload
              (sampleLifecycle ++ [call_componentDidUnload])).
Defined.

(** The second of the three fruits. *)
Lemma interaction_with_a_rendered_chip_witness :
  ∃ id,
    omap (stringProp "id") (elements (render fruits)) !! 1 = Some id
    ∧ effects (handleInteraction {| chipId := id |} fruits)
      = effects fruits ++ [interact_emit (Some pear)].
Proof.
  apply (interaction_with_a_rendered_chip fruits 1 pear).
  - apply fruits_distinct.
  - reflexivity.
Defined.

(** Removing the pear from the three fruits and assigning the chips of the
    change event. *)
Lemma removed_chip_is_not_rendered_witness :
  let w' :=
    call (assign_value [apple; plum])
      (handleRemove {| chipId := "2" |} fruits) in
  omap (stringProp "id") (elements (render w'))
  = ["1"; "plum"; "my-text-field"]
  ∧ textValue (this w') = EmptyString.
Proof.
  by apply (removed_chip_is_not_rendered {| chipId := "2" |} fruits
              [apple; plum]).
Defined.

End ChipSetSamples.
